(** * Blackjack (main.py): a shallow embedding and its verified properties

    The development follows the layout of [main.py]:
    cards and the deck, the hand evaluator ([hand_value],
    [sum_card_values_as_ace_one], [is_blackjack]), the two prompts, the
    dealer ([dealer_play]), outcome comparison ([compare_outcome]), one
    round ([play_round]) and the session loop ([main]).

    Python integers are unbounded, so they are modelled by [Z].  Python
    lists are modelled by [list], in the order Python stores them: the
    deck is popped from its END, as [list.pop()] does.  The only
    floating-point expression of the program, [int(1.5 * bet)], is
    modelled by an integer-only rendering of binary64 rounding. *)

From Stdlib Require Import ZArith List Bool Lia Permutation.
Import ListNotations.
Local Open Scope Z_scope.

(** ** Results of effectful code

    The program can end a call in four ways: it returns, it raises an
    uncaught exception, it spins forever ([prompt_bet] swallows the
    end-of-input exception and prompts again), or - in the model only -
    the loop counter handed to a [while True] loop is used up. *)

Inductive exn : Type :=
| IndexError      (* list.pop() on an empty list *)
| EOFError        (* input() at end of input *)
| OverflowError.  (* int -> float conversion, or int(inf) *)

Inductive result (A : Type) : Type :=
| Ret (a : A)
| Raise (e : exn)
| Diverges
| OutOfFuel.

Arguments Ret {A} a.
Arguments Raise {A} e.
Arguments Diverges {A}.
Arguments OutOfFuel {A}.

Definition bind {A B : Type} (m : result A) (k : A -> result B) : result B :=
  match m with
  | Ret a => k a
  | Raise e => Raise e
  | Diverges => Diverges
  | OutOfFuel => OutOfFuel
  end.

Notation "x <- m ;; k" := (bind m (fun x => k))
  (at level 61, m at next level, right associativity).
Notation "' pat <- m ;; k" := (bind m (fun x => match x with pat => k end))
  (at level 61, pat pattern, m at next level, right associativity).

(** ** Cards and the deck *)

(** [RANKS = "23456789TJQKA"] *)
Inductive Rank : Type :=
| R2 | R3 | R4 | R5 | R6 | R7 | R8 | R9 | RT | RJ | RQ | RK | RA.

(** [SUITS = "♠♥♦♣"] *)
Inductive Suit : Type := Spade | Heart | Diamond | Club.

Record Card : Type := mkCard { rank : Rank; suit : Suit }.

Definition RANKS : list Rank :=
  [R2; R3; R4; R5; R6; R7; R8; R9; RT; RJ; RQ; RK; RA].
Definition SUITS : list Suit := [Spade; Heart; Diamond; Club].

(** [Deck.__init__], before the shuffle:
    [[Card(r, s) for r in RANKS for s in SUITS]]. *)
Definition fresh_cards : list Card :=
  flat_map (fun r => map (fun s => mkCard r s) SUITS) RANKS.

(** [list.pop()]: removes and returns the LAST element. *)
Fixpoint pop (cards : list Card) : option (Card * list Card) :=
  match cards with
  | [] => None
  | c :: rest =>
      match pop rest with
      | None => Some (c, [])
      | Some (x, rest') => Some (x, c :: rest')
      end
  end.

(** [Deck.deal(n)]: [[self.cards.pop() for _ in range(n)]].  Returns the
    cards dealt, in the order they were popped, and the deck left. *)
Fixpoint deal (cards : list Card) (n : nat) : result (list Card * list Card) :=
  match n with
  | O => Ret ([], cards)
  | S n' =>
      match pop cards with
      | None => Raise IndexError
      | Some (c, cards') =>
          '(cs, cards'') <- deal cards' n' ;;
          Ret (c :: cs, cards'')
      end
  end.

(** ** The hand evaluator *)

Definition is_ace (c : Card) : bool :=
  match rank c with RA => true | _ => false end.

(** [c.rank in 'TJQK'] *)
Definition in_TJQK (c : Card) : bool :=
  match rank c with RT | RJ | RQ | RK => true | _ => false end.

(** [int(c.rank)], reached only for the ranks '2' to '9'. *)
Definition int_rank (c : Card) : Z :=
  match rank c with
  | R2 => 2 | R3 => 3 | R4 => 4 | R5 => 5
  | R6 => 6 | R7 => 7 | R8 => 8 | R9 => 9
  | _ => 0
  end.

(** One pass of the [for c in cards] loop of [hand_value], on the pair
    [(total, aces)]. *)
Definition count_card (st : Z * nat) (c : Card) : Z * nat :=
  let '(total, aces) := st in
  if is_ace c then (total + 11, S aces)
  else if in_TJQK c then (total + 10, aces)
  else (total + int_rank c, aces).

Definition count_cards (cards : list Card) : Z * nat :=
  fold_left count_card cards (0, O).

(** [while total > 21 and aces > 0: total -= 10; aces -= 1] *)
Fixpoint reduce_aces (total : Z) (aces : nat) : Z * nat :=
  match aces with
  | O => (total, O)
  | S aces' =>
      if 21 <? total then reduce_aces (total - 10) aces' else (total, aces)
  end.

(** [any(c.rank == 'A' for c in cards)] *)
Definition any_ace (cards : list Card) : bool := existsb is_ace cards.

(** [sum_card_values_as_ace_one] *)
Definition sum_card_values_as_ace_one (cards : list Card) : Z :=
  fold_left
    (fun s c =>
       if is_ace c then s + 1
       else if in_TJQK c then s + 10
       else s + int_rank c)
    cards 0.

(** The values of [total] and [aces] when the [while] loop of
    [hand_value] is left. *)
Definition hand_value_loop (cards : list Card) : Z * nat :=
  let '(total, aces) := count_cards cards in reduce_aces total aces.

(** The local variable [is_soft] of [hand_value] (line 73).  It is
    computed and then dropped: the [return] statement recomputes a flag
    of its own. *)
Definition hand_value_is_soft_local (cards : list Card) : bool :=
  let total := fst (hand_value_loop cards) in
  any_ace cards && (total + 0 <=? 21) && any_ace cards
  && negb (total =? sum_card_values_as_ace_one cards).

(** [hand_value]: the pair returned on line 74. *)
Definition hand_value (cards : list Card) : Z * bool :=
  let total := fst (hand_value_loop cards) in
  (total,
   any_ace cards && (total + 0 <=? 21) && any_ace cards
   && (1 <=? total - 10) && (total - 10 <? total)).

(** [is_blackjack] *)
Definition is_blackjack (cards : list Card) : bool :=
  if negb (Nat.eqb (length cards) 2) then false
  else fst (hand_value cards) =? 21.

(** ** The floating-point product [int(1.5 * bet)]

    [1.5 * bet] converts [bet] to a binary64 float, multiplies, and
    rounds; [int] truncates toward zero.  Every value involved is a
    multiple of one half and no subnormal number can arise, so the
    computation is rendered on integers: a float is represented by the
    integer number of halves it is worth where needed, and rounding keeps
    the 53 most significant bits, to nearest, ties to even. *)

(** Rounding of a non-negative integer to 53 significant bits. *)
Definition round53_pos (n : Z) : Z :=
  let e := Z.log2 n in
  if e <? 53 then n
  else
    let s := e - 52 in
    let q := Z.shiftr n s in
    let r := n - Z.shiftl q s in
    let h := Z.shiftl 1 (s - 1) in
    let q' := if (h <? r) || ((h =? r) && Z.odd q) then q + 1 else q in
    Z.shiftl q' s.

Definition round53 (n : Z) : Z := Z.sgn n * round53_pos (Z.abs n).

(** [int(1.5 * bet)].  The conversion of [bet] raises [OverflowError]
    when the rounded value does not fit a binary64; so does [int] of the
    infinity an overflowing product yields. *)
Definition int_1_5_times (bet : Z) : result Z :=
  let x := round53 bet in                      (* float(bet) *)
  if 2 ^ 1024 <=? Z.abs x then Raise OverflowError
  else
    let halves := round53 (3 * x) in           (* 1.5 * x, in halves *)
    if 2 ^ 1025 <=? Z.abs halves then Raise OverflowError
    else Ret (Z.quot halves 2).

(** ** The prompts

    A line of input is kept as the class it falls in once [strip] (and
    [lower], where the program applies it) has been applied; the classes
    are those the three readers of the program tell apart. *)
Inductive Line : Type :=
| LQ              (* q *)
| LQuit           (* quit *)
| LInt (z : Z)    (* a line that int() parses, with its value *)
| LHit            (* h, hit *)
| LStand          (* s, stand *)
| LDouble         (* d, double *)
| LOther.         (* anything else, the empty line included *)

(** [prompt_bet].  At end of input [input()] raises [EOFError], which the
    [except Exception: pass] of the loop swallows: the loop then prompts
    again, for ever. *)
Fixpoint prompt_bet (chips : Z) (lines : list Line)
  : result (option Z * list Line) :=
  match lines with
  | [] => Diverges
  | l :: rest =>
      match l with
      | LQ | LQuit => Ret (None, rest)
      | LInt bet =>
          if (1 <=? bet) && (bet <=? chips) then Ret (Some bet, rest)
          else prompt_bet chips rest
      | _ => prompt_bet chips rest
      end
  end.

Inductive Action : Type := hit | stand | double.

(** [prompt_action] *)
Fixpoint prompt_action (can_double : bool) (lines : list Line)
  : result (Action * list Line) :=
  match lines with
  | [] => Raise EOFError
  | l :: rest =>
      match l with
      | LHit => Ret (hit, rest)
      | LStand => Ret (stand, rest)
      | LDouble =>
          if can_double then Ret (double, rest)
          else prompt_action can_double rest
      | _ => prompt_action can_double rest
      end
  end.

(** ** The dealer *)

(** The expression assigned to [is_soft] inside [dealer_play]. *)
Definition dealer_is_soft (dealer_cards : list Card) : bool :=
  let v := fst (hand_value dealer_cards) in
  let min_val := sum_card_values_as_ace_one dealer_cards in
  any_ace dealer_cards && (10 <=? v - min_val) && (v =? 17).

(** The [while True] loop of [dealer_play]; [fuel] bounds the number of
    iterations.  The deck is a mutable object, so its new contents are
    returned next to the hand. *)
Fixpoint dealer_loop (fuel : nat) (deck dealer_cards : list Card)
  : result (list Card * list Card) :=
  match fuel with
  | O => OutOfFuel
  | S fuel' =>
      let v := fst (hand_value dealer_cards) in
      let is_soft := dealer_is_soft dealer_cards in
      if v <? 17 then
        '(cs, deck') <- deal deck 1 ;;
        dealer_loop fuel' deck' (dealer_cards ++ cs)
      else if (v =? 17) && is_soft then Ret (deck, dealer_cards)
      else Ret (deck, dealer_cards)
  end.

(** [dealer_play].  An iteration that does not leave the loop pops a
    card, so one more iteration than the deck has cards is enough (see
    [dealer_play_fuel]). *)
Definition dealer_play (deck dealer_cards : list Card)
  : result (list Card * list Card) :=
  dealer_loop (S (length deck)) deck dealer_cards.

(** ** Outcome of a round *)

Inductive Outcome : Type :=
| player_bust | dealer_bust | player_win | dealer_win | push.

(** [compare_outcome] *)
Definition compare_outcome (player_cards dealer_cards : list Card) : Outcome :=
  let pv := fst (hand_value player_cards) in
  let dv := fst (hand_value dealer_cards) in
  if 21 <? pv then player_bust
  else if 21 <? dv then dealer_bust
  else if dv <? pv then player_win
  else if pv <? dv then dealer_win
  else push.

(** ** One round *)

(** The [return] statement through which [play_round] is left. *)
Inductive Exit : Type :=
| ExitNatural                (* line 188 *)
| ExitHitBust                (* line 201 *)
| ExitDoubleBust             (* line 216 *)
| ExitFinal (o : Outcome).   (* line 245 *)

(** The local variables of [play_round] when it returns, and the input
    left unread. *)
Record Round : Type := mkRound {
  r_chips : Z;
  r_bet : Z;
  r_original_bet : Z;
  r_doubled : bool;
  r_player_cards : list Card;
  r_dealer_cards : list Card;
  r_deck : list Card;
  r_input : list Line;
  r_exit : Exit
}.

(** The locals with which the player's loop is left by [break]. *)
Record Standing : Type := mkStanding {
  s_chips : Z;
  s_bet : Z;
  s_doubled : bool;
  s_player_cards : list Card;
  s_deck : list Card;
  s_input : list Line
}.

(** The player's [while True] loop (lines 192-219).  It yields either
    the round as it ends inside the loop ([inl]: a [return]), or the
    locals with which the loop is left ([inr]: a [break]). *)
Fixpoint player_loop (fuel : nat) (chips bet original_bet : Z)
    (player_cards dealer_cards deck : list Card) (lines : list Line)
  : result (Round + Standing) :=
  match fuel with
  | O => OutOfFuel
  | S fuel' =>
      let can_double := bet <=? chips - bet in
      '(action, lines) <- prompt_action can_double lines ;;
      match action with
      | hit =>
          '(cs, deck) <- deal deck 1 ;;
          let player_cards := player_cards ++ cs in
          if 21 <? fst (hand_value player_cards) then
            let chips := chips - bet in
            Ret (inl (mkRound chips bet original_bet false
                        player_cards dealer_cards deck lines ExitHitBust))
          else
            player_loop fuel' chips bet original_bet
              player_cards dealer_cards deck lines
      | double =>
          let chips := chips - bet in
          let bet := bet * 2 in
          '(cs, deck) <- deal deck 1 ;;
          let player_cards := player_cards ++ cs in
          if 21 <? fst (hand_value player_cards) then
            let chips := chips - 0 in
            Ret (inl (mkRound chips bet original_bet true
                        player_cards dealer_cards deck lines ExitDoubleBust))
          else
            Ret (inr (mkStanding chips bet true player_cards deck lines))
      | stand =>
          Ret (inr (mkStanding chips bet false player_cards deck lines))
      end
  end.

(** Lines 227-245: the chips after the outcome has been applied. *)
Definition settle (o : Outcome) (chips bet : Z) : Z :=
  match o with
  | player_bust => chips - bet
  | dealer_bust => chips + bet
  | player_win => chips + bet
  | dealer_win => chips - bet
  | push => chips
  end.

(** [play_round] from line 166 on, once [prompt_bet] has returned a
    bet.  A call of [prompt_action] reads at least one line, so the
    player's loop runs at most once more than there are lines (see
    [player_loop_fuel]). *)
Definition play_round_from_bet (chips bet : Z)
    (player_cards dealer_cards deck : list Card) (lines : list Line)
  : result Round :=
  let original_bet := bet in
  let player_natural := is_blackjack player_cards in
  let dealer_natural := is_blackjack dealer_cards in
  if player_natural || dealer_natural then
    if player_natural && negb dealer_natural then
      payout <- int_1_5_times bet ;;
      let chips := chips + (bet + payout) in
      Ret (mkRound chips bet original_bet false
             player_cards dealer_cards deck lines ExitNatural)
    else if dealer_natural && negb player_natural then
      let chips := chips - bet in
      Ret (mkRound chips bet original_bet false
             player_cards dealer_cards deck lines ExitNatural)
    else
      Ret (mkRound chips bet original_bet false
             player_cards dealer_cards deck lines ExitNatural)
  else
    r <- player_loop (S (length lines)) chips bet original_bet
           player_cards dealer_cards deck lines ;;
    match r with
    | inl round => Ret round
    | inr s =>
        '(deck, dealer_cards) <- dealer_play (s_deck s) dealer_cards ;;
        let outcome := compare_outcome (s_player_cards s) dealer_cards in
        let chips := settle outcome (s_chips s) (s_bet s) in
        Ret (mkRound chips (s_bet s) original_bet (s_doubled s)
               (s_player_cards s) dealer_cards deck (s_input s)
               (ExitFinal outcome))
    end.

(** [play_round] with its locals: [None] when the user quits at the bet
    prompt, else the round as it ended.  [cards] is the deck as
    [Deck()] shuffled it. *)
Definition play_round_locals (chips : Z) (cards : list Card) (lines : list Line)
  : result (option Round * list Line) :=
  let deck := cards in
  '(player_cards, deck) <- deal deck 2 ;;
  '(dealer_cards, deck) <- deal deck 2 ;;
  '(bet, lines) <- prompt_bet chips lines ;;
  match bet with
  | None => Ret (None, lines)
  | Some bet =>
      round <- play_round_from_bet chips bet
                 player_cards dealer_cards deck lines ;;
      Ret (Some round, r_input round)
  end.

(** [play_round]: the pair it returns ([None] or [True], and the chips),
    with the input left unread. *)
Definition play_round (chips : Z) (cards : list Card) (lines : list Line)
  : result (option bool * Z * list Line) :=
  '(round, lines) <- play_round_locals chips cards lines ;;
  match round with
  | None => Ret (None, chips, lines)
  | Some round => Ret (Some true, r_chips round, lines)
  end.

(** ** The session *)

(** The [while True] loop of [main].  [shuffles n] is the deck that
    [Deck()] builds in round [n]; the list returned holds the balances
    printed after each round ([Chips: ...]), in order. *)
Fixpoint main_loop (fuel : nat) (chips : Z) (shuffles : nat -> list Card)
    (n : nat) (lines : list Line) : result (list Z) :=
  match fuel with
  | O => OutOfFuel
  | S fuel' =>
      if chips <=? 0 then Ret []
      else
        '(cont, chips, lines) <- play_round chips (shuffles n) lines ;;
        match cont with
        | None => Ret []
        | Some _ =>
            match lines with
            | [] => Raise EOFError
            | cmd :: lines =>
                match cmd with
                | LQ => Ret [chips]
                | _ =>
                    printed <- main_loop fuel' chips shuffles (S n) lines ;;
                    Ret (chips :: printed)
                end
            end
        end
  end.

(** [main]: the session starts with 100 chips.  Every round reads at
    least one line. *)
Definition main (shuffles : nat -> list Card) (lines : list Line)
  : result (list Z) :=
  main_loop (S (length lines)) 100 shuffles 0%nat lines.

(** ** Concrete decks

    [random.shuffle] leaves a permutation of the 52 cards.  To run the
    program on chosen cards, [stacked top] is the permutation that deals
    the cards of [top] first, in that order. *)

Definition rank_eqb (a b : Rank) : bool :=
  match a, b with
  | R2, R2 | R3, R3 | R4, R4 | R5, R5 | R6, R6 | R7, R7 | R8, R8
  | R9, R9 | RT, RT | RJ, RJ | RQ, RQ | RK, RK | RA, RA => true
  | _, _ => false
  end.

Definition suit_eqb (a b : Suit) : bool :=
  match a, b with
  | Spade, Spade | Heart, Heart | Diamond, Diamond | Club, Club => true
  | _, _ => false
  end.

Definition card_eqb (a b : Card) : bool :=
  rank_eqb (rank a) (rank b) && suit_eqb (suit a) (suit b).

Definition stacked (top : list Card) : list Card :=
  filter (fun c => negb (existsb (card_eqb c) top)) fresh_cards ++ rev top.

(** A checker for permutations of cards. *)
Fixpoint remove_card (c : Card) (l : list Card) : option (list Card) :=
  match l with
  | [] => None
  | x :: l' =>
      if card_eqb c x then Some l'
      else match remove_card c l' with
           | Some r => Some (x :: r)
           | None => None
           end
  end.

Fixpoint is_perm (l l' : list Card) : bool :=
  match l with
  | [] => match l' with [] => true | _ => false end
  | c :: t =>
      match remove_card c l' with
      | Some r => is_perm t r
      | None => false
      end
  end.

Notation "r 'of' s" := (mkCard r s) (at level 9, only parsing).

(** ** The window ([BlackjackGUI])

    The session of the window is the object's fields: the chips, the
    deck, the two hands and the bet, the states of the three action
    buttons ([true] for [tk.NORMAL], [false] for [tk.DISABLED]), the
    text of the status label and the message boxes shown so far.  The
    labels that [update_display] redraws are functions of the fields
    and are left out.  The field [deck] is [None] until the first
    round; no method reads it before, and it is modelled by the empty
    list. *)

(** The texts the window shows in message boxes and in the status
    label. *)
Inductive Notice : Type :=
| NBlackjack (payout : Z)   (* Blackjack! You win {payout} (3:2) *)
| NDealerBlackjack          (* Dealer has blackjack. You lose. *)
| NBothBlackjack            (* Both have blackjack. Push. *)
| NBusted                   (* You busted. You lose your bet. *)
| NDealerBusted             (* Dealer busted. You win! *)
| NYouWin                   (* You win! *)
| NDealerWins               (* Dealer wins. You lose your bet. *)
| NPush                     (* Push. Your bet is returned. *)
| NBustedAfterDouble.       (* You busted after doubling! *)

Record GUI : Type := mkGUI {
  g_chips : Z;
  g_deck : list Card;
  g_player : list Card;
  g_dealer : list Card;
  g_bet : Z;
  g_hit_btn : bool;
  g_stand_btn : bool;
  g_double_btn : bool;
  g_status : option Notice;
  g_boxes : list Notice
}.

(** [BlackjackGUI.__init__] *)
Definition gui_init : GUI :=
  mkGUI 100 [] [] [] 0 false false false None [].

(** [simpledialog.askinteger] with [minvalue] and [maxvalue]: the
    dialog stays open on an entry out of range; [entries] are the
    integers the user enters, followed by Cancel. *)
Fixpoint askinteger (minvalue maxvalue : Z) (entries : list Z) : option Z :=
  match entries with
  | [] => None
  | e :: rest =>
      if (minvalue <=? e) && (e <=? maxvalue) then Some e
      else askinteger minvalue maxvalue rest
  end.

(** [end_round] *)
Definition gui_end_round (msg : Notice) (g : GUI) : GUI :=
  mkGUI (g_chips g) (g_deck g) (g_player g) (g_dealer g) (g_bet g)
    false false false (Some msg) (g_boxes g ++ [msg]).

(** [new_round]; [cards] is the deck as [Deck()] shuffled it. *)
Definition gui_new_round (cards : list Card) (entries : list Z) (g : GUI)
  : result GUI :=
  '(player, deck) <- deal cards 2 ;;
  '(dealer, deck) <- deal deck 2 ;;
  match askinteger 1 (g_chips g) entries with
  | None =>
      Ret (mkGUI (g_chips g) deck player dealer (g_bet g)
             (g_hit_btn g) (g_stand_btn g) (g_double_btn g)
             (g_status g) (g_boxes g))
  | Some bet =>
      let chips := g_chips g in
      let double_btn := bet <=? chips - bet in
      let player_natural := is_blackjack player in
      let dealer_natural := is_blackjack dealer in
      if player_natural || dealer_natural then
        if player_natural && negb dealer_natural then
          payout <- int_1_5_times bet ;;
          Ret (mkGUI (chips + (bet + payout)) deck player dealer bet
                 false false false None (g_boxes g ++ [NBlackjack payout]))
        else if dealer_natural && negb player_natural then
          Ret (mkGUI (chips - bet) deck player dealer bet
                 false false false None (g_boxes g ++ [NDealerBlackjack]))
        else
          Ret (mkGUI chips deck player dealer bet
                 false false false None (g_boxes g ++ [NBothBlackjack]))
      else
        Ret (mkGUI chips deck player dealer bet
               true true double_btn None (g_boxes g))
  end.

(** [hit] *)
Definition gui_hit (g : GUI) : result GUI :=
  '(cs, deck) <- deal (g_deck g) 1 ;;
  let player := g_player g ++ cs in
  let g := mkGUI (g_chips g) deck player (g_dealer g) (g_bet g)
             (g_hit_btn g) (g_stand_btn g) (g_double_btn g)
             (g_status g) (g_boxes g) in
  if 21 <? fst (hand_value player) then
    Ret (gui_end_round NBusted
           (mkGUI (g_chips g - g_bet g) (g_deck g) (g_player g) (g_dealer g)
              (g_bet g) (g_hit_btn g) (g_stand_btn g) (g_double_btn g)
              (g_status g) (g_boxes g)))
  else Ret g.

(** [stand] *)
Definition gui_stand (g : GUI) : result GUI :=
  '(deck, dealer) <- dealer_play (g_deck g) (g_dealer g) ;;
  let outcome := compare_outcome (g_player g) dealer in
  let ended chips msg :=
    gui_end_round msg
      (mkGUI chips deck (g_player g) dealer (g_bet g)
         false false false (g_status g) (g_boxes g)) in
  match outcome with
  | player_bust => Ret (ended (g_chips g - g_bet g) NBusted)
  | dealer_bust => Ret (ended (g_chips g + g_bet g) NDealerBusted)
  | player_win => Ret (ended (g_chips g + g_bet g) NYouWin)
  | dealer_win => Ret (ended (g_chips g - g_bet g) NDealerWins)
  | push => Ret (ended (g_chips g) NPush)
  end.

(** [double] *)
Definition gui_double (g : GUI) : result GUI :=
  if g_bet g <=? g_chips g then
    let chips := g_chips g - g_bet g in
    let bet := g_bet g * 2 in
    '(cs, deck) <- deal (g_deck g) 1 ;;
    let player := g_player g ++ cs in
    let g := mkGUI chips deck player (g_dealer g) bet
               (g_hit_btn g) (g_stand_btn g) (g_double_btn g)
               (g_status g) (g_boxes g) in
    if 21 <? fst (hand_value player) then
      Ret (gui_end_round NBustedAfterDouble
             (mkGUI (g_chips g - 0) (g_deck g) (g_player g) (g_dealer g)
                (g_bet g) (g_hit_btn g) (g_stand_btn g) (g_double_btn g)
                (g_status g) (g_boxes g)))
    else gui_stand g
  else Ret g.

(** What the user does: a click on [New Round], with the shuffle that
    [Deck()] then makes and the entries typed in the bet dialog, or a
    click on one of the action buttons.  A disabled button does not
    call its command. *)
Inductive Event : Type :=
| ClickNew (cards : list Card) (entries : list Z)
| ClickHit
| ClickStand
| ClickDouble.

Definition gui_click (e : Event) (g : GUI) : result GUI :=
  match e with
  | ClickNew cards entries => gui_new_round cards entries g
  | ClickHit => if g_hit_btn g then gui_hit g else Ret g
  | ClickStand => if g_stand_btn g then gui_stand g else Ret g
  | ClickDouble => if g_double_btn g then gui_double g else Ret g
  end.

(** The main loop on the events of a session; it is followed up to the
    first exception a command raises. *)
Fixpoint gui_run (g : GUI) (events : list Event) : result GUI :=
  match events with
  | [] => Ret g
  | e :: rest => g' <- gui_click e g ;; gui_run g' rest
  end.

(** The same action at the window and at the prompt. *)
Definition click_of (a : Action) : Event :=
  match a with hit => ClickHit | stand => ClickStand | double => ClickDouble end.

Definition line_of (a : Action) : Line :=
  match a with hit => LHit | stand => LStand | double => LDouble end.

(** What holds of the window whenever its action buttons are enabled. *)
Definition gui_inv (g : GUI) : Prop :=
  g_hit_btn g = g_stand_btn g
  /\ (g_double_btn g = true -> g_hit_btn g = true)
  /\ (g_hit_btn g = true ->
      1 <= g_bet g <= g_chips g
      /\ fst (hand_value (g_player g)) <= 21
      /\ length (g_dealer g) = 2%nat
      /\ (g_double_btn g = true -> g_bet g <= g_chips g - g_bet g)).

(** The cards in play while the action buttons are enabled, on decks of
    52 cards. *)
Definition gui_deck_inv (g : GUI) : Prop :=
  g_hit_btn g = true \/ g_double_btn g = true ->
  (length (g_deck g) + length (g_player g) = 50)%nat.

(** A click on [New Round] shuffles the 52 cards. *)
Definition shuffled (e : Event) : Prop :=
  match e with
  | ClickNew cards _ => Permutation fresh_cards cards
  | _ => True
  end.

(** The window after a round and the locals of [play_round] when it
    returns hold the same chips, bet, hands and deck, and the action
    buttons are disabled. *)
Definition gui_agrees (g : GUI) (round : Round) : Prop :=
  g_chips g = r_chips round
  /\ g_bet g = r_bet round
  /\ g_player g = r_player_cards round
  /\ g_dealer g = r_dealer_cards round
  /\ g_deck g = r_deck round
  /\ g_hit_btn g = false /\ g_stand_btn g = false
  /\ g_double_btn g = false.

(** The loop of [main] with the function it calls for a round as a
    parameter: [main_loop] is this loop at [play_round] (see
    [main_loop_with_play_round]).  It serves to say which calls of
    [play_round] the loop makes. *)
Fixpoint main_loop_with
    (round : Z -> list Card -> list Line -> result (option bool * Z * list Line))
    (fuel : nat) (chips : Z) (shuffles : nat -> list Card)
    (n : nat) (lines : list Line) : result (list Z) :=
  match fuel with
  | O => OutOfFuel
  | S fuel' =>
      if chips <=? 0 then Ret []
      else
        '(cont, chips, lines) <- round chips (shuffles n) lines ;;
        match cont with
        | None => Ret []
        | Some _ =>
            match lines with
            | [] => Raise EOFError
            | cmd :: lines =>
                match cmd with
                | LQ => Ret [chips]
                | _ =>
                    printed <- main_loop_with round fuel' chips shuffles
                                 (S n) lines ;;
                    Ret (chips :: printed)
                end
            end
        end
  end.

(** ** Quantities the statements speak of *)

(** What a card adds in [sum_card_values_as_ace_one]. *)
Definition low_value (c : Card) : Z :=
  if is_ace c then 1 else if in_TJQK c then 10 else int_rank c.

(** The number of Aces of a hand: the value of [aces] when the [for]
    loop of [hand_value] ends. *)
Definition num_aces (cards : list Card) : nat := snd (count_cards cards).

(** The number of Aces still counted as 11 when [hand_value] returns. *)
Definition aces_at_11 (cards : list Card) : nat := snd (hand_value_loop cards).

(** The number of Aces downgraded from 11 to 1 by [hand_value]. *)
Definition downgrades (cards : list Card) : nat :=
  (num_aces cards - aces_at_11 cards)%nat.

(** The softness test of [dealer_play] as the specification words it:
    the hand holds an Ace, and the evaluated total minus the sum with
    every Ace as 1 is at least 10.  ([dealer_is_soft], the expression of
    the source, has the further conjunct [v == 17].) *)
Definition dealer_soft_detection (dealer_cards : list Card) : bool :=
  let v := fst (hand_value dealer_cards) in
  let min_val := sum_card_values_as_ace_one dealer_cards in
  any_ace dealer_cards && (10 <=? v - min_val).

(** The chips and the bet with which the player's loop can end, from
    the chips and the bet it starts with: untouched unless the player
    doubled, which the prompt offers only when [chips - bet >= bet]. *)
Definition stakes_after_loop (chips bet : Z) (doubled : bool)
    (chips' bet' : Z) : Prop :=
  if doubled then
    bet' = bet * 2 /\ chips' = chips - bet /\ bet <= chips - bet
  else bet' = bet /\ chips' = chips.

(** How a round that returns has ended, exit by exit. *)
Definition round_ends (chips bet : Z) (player dealer : list Card)
    (drawn_p drawn_d : list Card) (round : Round) : Prop :=
  match r_exit round with
  | ExitNatural =>
      r_doubled round = false /\ r_bet round = bet
      /\ drawn_p = [] /\ drawn_d = []
      /\ ((is_blackjack player = true /\ is_blackjack dealer = false
           /\ exists payout,
                int_1_5_times bet = Ret payout
                /\ r_chips round = chips + (bet + payout))
          \/ (is_blackjack player = false /\ is_blackjack dealer = true
              /\ r_chips round = chips - bet)
          \/ (is_blackjack player = true /\ is_blackjack dealer = true
              /\ r_chips round = chips))
  | ExitHitBust =>
      r_doubled round = false /\ r_bet round = bet
      /\ drawn_d = [] /\ 21 < fst (hand_value (r_player_cards round))
      /\ r_chips round = chips - bet
  | ExitDoubleBust =>
      r_doubled round = true /\ r_bet round = bet * 2
      /\ drawn_d = [] /\ 21 < fst (hand_value (r_player_cards round))
      /\ bet <= chips - bet
      /\ r_chips round = chips - bet
  | ExitFinal o =>
      o = compare_outcome (r_player_cards round) (r_dealer_cards round)
      /\ 17 <= fst (hand_value (r_dealer_cards round))
      /\ if r_doubled round then
           r_bet round = bet * 2 /\ bet <= chips - bet
           /\ fst (hand_value (r_player_cards round)) <= 21
           /\ r_chips round = settle o (chips - bet) (bet * 2)
         else
           r_bet round = bet /\ r_chips round = settle o chips bet
  end.

(** The lines [prompt_bet] answers with [Invalid bet] and reads past. *)
Definition bet_rejected (chips : Z) (l : Line) : Prop :=
  match l with
  | LQ | LQuit => False
  | LInt bet => ~ (1 <= bet <= chips)
  | _ => True
  end.

(** The action [prompt_action] reads in a line, if any. *)
Definition action_of (can_double : bool) (l : Line) : option Action :=
  match l with
  | LHit => Some hit
  | LStand => Some stand
  | LDouble => if can_double then Some double else None
  | _ => None
  end.

(** An outcome seen from the other side of the table. *)
Definition swap_outcome (o : Outcome) : Outcome :=
  match o with
  | player_bust => dealer_bust
  | dealer_bust => player_bust
  | player_win => dealer_win
  | dealer_win => player_win
  | push => push
  end.

(** A checker for lists of cards without repetition. *)
Fixpoint nodupb (l : list Card) : bool :=
  match l with
  | [] => true
  | c :: t => negb (existsb (card_eqb c) t) && nodupb t
  end.

(** * Properties *)

(** Splits a conjunction of equations and bounds and closes each part. *)
Ltac conj_auto :=
  repeat match goal with |- _ /\ _ => split end;
  first [ reflexivity | assumption | discriminate | lia
        | intros; lia | intros; discriminate ].

Ltac conj_try :=
  repeat match goal with |- _ /\ _ => split end;
  try first [ reflexivity | assumption | discriminate | lia
            | intros; lia | intros; discriminate | congruence ].

(** ** The deck *)

Lemma pop_nil (cards : list Card) : pop cards = None <-> cards = [].
Proof.
  destruct cards as [|c rest]; simpl.
  - tauto.
  - destruct (pop rest) as [[x r]|]; split; discriminate.
Qed.

Lemma pop_snoc (cards : list Card) (c : Card) : pop (cards ++ [c]) = Some (c, cards).
Proof.
  induction cards as [|x cards IH]; simpl.
  - reflexivity.
  - now rewrite IH.
Qed.

Lemma pop_some (cards rest : list Card) (c : Card) :
  pop cards = Some (c, rest) -> cards = rest ++ [c].
Proof.
  revert rest c.
  induction cards as [|x cards IH]; simpl; intros rest c H.
  - discriminate.
  - destruct (pop cards) as [[y r]|] eqn:E.
    + injection H as <- <-. simpl. f_equal. now apply IH.
    + injection H as <- <-. apply pop_nil in E. now subst.
Qed.

Lemma deal_one (cards : list Card) :
  deal cards 1 = match pop cards with
                 | None => Raise IndexError
                 | Some (c, rest) => Ret ([c], rest)
                 end.
Proof.
  simpl. now destruct (pop cards) as [[c rest]|].
Qed.

Lemma deal_ret (n : nat) : forall cards cs rest,
  deal cards n = Ret (cs, rest) ->
  cards = rest ++ rev cs /\ length cs = n.
Proof.
  induction n as [|n IH]; simpl; intros cards cs rest H.
  - injection H as <- <-. now rewrite app_nil_r.
  - destruct (pop cards) as [[c cards']|] eqn:E; [|discriminate].
    destruct (deal cards' n) as [[cs' rest']| | |] eqn:D; simpl in H;
      try discriminate.
    injection H as <- <-.
    apply IH in D as [-> <-]. apply pop_some in E. subst cards.
    simpl. now rewrite <- app_assoc.
Qed.

Lemma deal_enough (n : nat) : forall cards,
  (n <= length cards)%nat -> exists cs rest, deal cards n = Ret (cs, rest).
Proof.
  induction n as [|n IH]; simpl; intros cards H.
  - now exists [], cards.
  - destruct (pop cards) as [[c cards']|] eqn:E.
    + apply pop_some in E. subst cards. rewrite length_app in H. simpl in H.
      destruct (IH cards') as (cs & rest & ->); [lia|].
      simpl. now exists (c :: cs), rest.
    + apply pop_nil in E. subst cards. simpl in H. lia.
Qed.

Lemma deal_raises (n : nat) : forall cards e,
  deal cards n = Raise e -> e = IndexError /\ (length cards < n)%nat.
Proof.
  intros cards e H.
  destruct (Nat.le_gt_cases n (length cards)) as [L|L].
  - destruct (deal_enough n cards L) as (cs & rest & E). congruence.
  - split; [|exact L].
    revert cards H L. induction n as [|n IH]; simpl; intros cards H L.
    + discriminate.
    + destruct (pop cards) as [[c cards']|] eqn:E; [|congruence].
      destruct (deal cards' n) as [[cs' rest']| | |] eqn:D; simpl in H;
        try discriminate.
      injection H as <-. apply pop_some in E. subst cards.
      rewrite length_app in L. simpl in L.
      apply (IH cards'); [exact D | lia].
Qed.

Lemma deal_total (n : nat) (cards : list Card) :
  deal cards n <> Diverges /\ deal cards n <> OutOfFuel.
Proof.
  revert cards. induction n as [|n IH]; simpl; intros cards.
  - split; discriminate.
  - destruct (pop cards) as [[c cards']|]; [|split; discriminate].
    destruct (IH cards') as [A B].
    destruct (deal cards' n) as [[cs rest]| | |]; simpl; split;
      congruence.
Qed.

(** [is_perm] is a sound test of permutation. *)
Lemma card_eqb_eq (a b : Card) : card_eqb a b = true -> a = b.
Proof.
  destruct a as [[] []], b as [[] []]; try discriminate; reflexivity.
Qed.

Lemma remove_card_perm (c : Card) (l : list Card) :
  forall r, remove_card c l = Some r -> Permutation l (c :: r).
Proof.
  induction l as [|x l IH]; intros r H; cbn [remove_card] in H;
    [discriminate|].
  destruct (card_eqb c x) eqn:E.
  - apply card_eqb_eq in E. injection H as <-. subst x. reflexivity.
  - destruct (remove_card c l) as [r'|]; [|discriminate].
    injection H as <-. rewrite (IH r' eq_refl). apply perm_swap.
Qed.

Lemma is_perm_sound (l : list Card) :
  forall l', is_perm l l' = true -> Permutation l l'.
Proof.
  induction l as [|c l IH]; intros l' H; cbn [is_perm] in H.
  - destruct l'; [constructor | discriminate].
  - destruct (remove_card c l') as [r|] eqn:R; [|discriminate].
    apply remove_card_perm in R. rewrite R. constructor. now apply IH.
Qed.

(** ** The hand evaluator *)

Lemma low_value_pos (c : Card) : 1 <= low_value c <= 10.
Proof.
  unfold low_value, is_ace, in_TJQK, int_rank.
  destruct c as [[] s]; simpl; lia.
Qed.

Lemma sum_ace_one_fold (cards : list Card) : forall s,
  fold_left
    (fun s c =>
       if is_ace c then s + 1
       else if in_TJQK c then s + 10
       else s + int_rank c) cards s
  = s + sum_card_values_as_ace_one cards.
Proof.
  unfold sum_card_values_as_ace_one.
  induction cards as [|c cards IH] using rev_ind; intros s; simpl.
  - lia.
  - rewrite !fold_left_app. simpl. rewrite (IH s), (IH 0).
    destruct (is_ace c), (in_TJQK c); lia.
Qed.

Lemma sum_ace_one_nil : sum_card_values_as_ace_one [] = 0.
Proof. reflexivity. Qed.

Lemma sum_ace_one_app (l1 l2 : list Card) :
  sum_card_values_as_ace_one (l1 ++ l2)
  = sum_card_values_as_ace_one l1 + sum_card_values_as_ace_one l2.
Proof.
  unfold sum_card_values_as_ace_one at 1.
  rewrite fold_left_app, sum_ace_one_fold.
  fold (sum_card_values_as_ace_one l1). lia.
Qed.

Lemma sum_ace_one_single (c : Card) :
  sum_card_values_as_ace_one [c] = low_value c.
Proof.
  unfold sum_card_values_as_ace_one, low_value. simpl.
  destruct (is_ace c), (in_TJQK c); lia.
Qed.

Lemma sum_ace_one_cons (c : Card) (l : list Card) :
  sum_card_values_as_ace_one (c :: l)
  = low_value c + sum_card_values_as_ace_one l.
Proof.
  change (c :: l) with ([c] ++ l).
  now rewrite sum_ace_one_app, sum_ace_one_single.
Qed.

Lemma sum_ace_one_length (cards : list Card) :
  Z.of_nat (length cards) <= sum_card_values_as_ace_one cards.
Proof.
  induction cards as [|c cards IH].
  - rewrite sum_ace_one_nil. simpl. lia.
  - rewrite sum_ace_one_cons. pose proof (low_value_pos c).
    simpl length. lia.
Qed.

Lemma count_cards_fold (cards : list Card) : forall total aces,
  fold_left count_card cards (total, aces)
  = (total + fst (count_cards cards), (aces + snd (count_cards cards))%nat).
Proof.
  unfold count_cards.
  induction cards as [|c cards IH] using rev_ind; intros total aces.
  - simpl. f_equal; lia.
  - rewrite !fold_left_app. simpl. rewrite (IH total aces), (IH 0 O).
    unfold count_card. simpl.
    destruct (is_ace c), (in_TJQK c); simpl; f_equal; lia.
Qed.

Lemma count_cards_snoc (cards : list Card) (c : Card) :
  count_cards (cards ++ [c]) = count_card (count_cards cards) c.
Proof.
  unfold count_cards. now rewrite fold_left_app.
Qed.

Lemma count_cards_total (cards : list Card) :
  fst (count_cards cards)
  = sum_card_values_as_ace_one cards + 10 * Z.of_nat (num_aces cards).
Proof.
  unfold num_aces.
  induction cards as [|c cards IH] using rev_ind.
  - reflexivity.
  - rewrite count_cards_snoc, sum_ace_one_app, sum_ace_one_single.
    destruct (count_cards cards) as [t a]. cbn [fst snd] in *.
    unfold low_value, count_card.
    destruct (is_ace c), (in_TJQK c); cbn [fst snd]; lia.
Qed.

Lemma any_ace_num_aces (cards : list Card) :
  any_ace cards = true <-> (0 < num_aces cards)%nat.
Proof.
  unfold num_aces, any_ace.
  induction cards as [|c cards IH] using rev_ind.
  - simpl. split; [discriminate | lia].
  - rewrite count_cards_snoc, existsb_app. simpl.
    destruct (count_cards cards) as [t a]. cbn [fst snd] in *.
    rewrite orb_false_r, orb_true_iff, IH. unfold count_card.
    destruct (is_ace c); [|destruct (in_TJQK c)]; cbn [fst snd];
      (split; [intros [H|H]; try discriminate; lia | intros H; try lia]);
      auto.
Qed.

Lemma num_aces_le_sum (cards : list Card) :
  Z.of_nat (num_aces cards) <= sum_card_values_as_ace_one cards.
Proof.
  unfold num_aces.
  induction cards as [|c cards IH] using rev_ind.
  - rewrite sum_ace_one_nil. simpl. lia.
  - rewrite count_cards_snoc, sum_ace_one_app, sum_ace_one_single.
    pose proof (low_value_pos c) as P. revert P. unfold low_value, count_card.
    destruct (count_cards cards) as [t a]. cbn [fst snd] in *.
    destruct (is_ace c); [|destruct (in_TJQK c)]; cbn [fst snd]; lia.
Qed.

Lemma reduce_aces_spec (aces : nat) : forall total,
  let '(total', aces') := reduce_aces total aces in
  (aces' <= aces)%nat
  /\ total' = total - 10 * Z.of_nat (aces - aces')
  /\ (21 < total' -> aces' = O)
  /\ ((aces' < aces)%nat -> 11 < total').
Proof.
  induction aces as [|aces IH]; intros total; cbn [reduce_aces].
  - repeat split; lia.
  - destruct (21 <? total) eqn:E.
    + apply Z.ltb_lt in E. specialize (IH (total - 10)).
      destruct (reduce_aces (total - 10) aces) as [t' a'].
      destruct IH as (L & T & B & D).
      split; [lia|]. split; [lia|]. split; [exact B|].
      intros _. destruct (Nat.eq_dec a' aces) as [->|N].
      * replace (aces - aces)%nat with O in T by lia. lia.
      * apply D. lia.
    + apply Z.ltb_ge in E. repeat split; lia.
Qed.

(** The shape of the evaluated total: the sum with every Ace as 1, plus
    10 for each Ace still counted as 11; an Ace is kept at 11 only when
    that does not bust, and downgraded only when it would. *)
Lemma hand_value_shape (cards : list Card) :
  let total := fst (hand_value cards) in
  total = sum_card_values_as_ace_one cards + 10 * Z.of_nat (aces_at_11 cards)
  /\ (aces_at_11 cards <= num_aces cards)%nat
  /\ (21 < total -> aces_at_11 cards = O)
  /\ ((aces_at_11 cards < num_aces cards)%nat -> 11 < total).
Proof.
  unfold hand_value, aces_at_11, hand_value_loop. cbn [fst snd].
  pose proof (count_cards_total cards) as T. unfold num_aces in *.
  destruct (count_cards cards) as [t a]. cbn [fst snd] in *.
  pose proof (reduce_aces_spec a t) as R.
  destruct (reduce_aces t a) as [t' a']. cbn [fst snd].
  destruct R as (L & E & B & D). repeat split; try assumption. lia.
Qed.

Lemma aces_at_11_le_1 (cards : list Card) : (aces_at_11 cards <= 1)%nat.
Proof.
  destruct (hand_value_shape cards) as (T & L & B & _).
  pose proof (num_aces_le_sum cards) as S.
  destruct (Z.ltb_spec 21 (fst (hand_value cards))) as [G|G].
  - rewrite (B G). lia.
  - lia.
Qed.

Lemma hand_value_ge_sum (cards : list Card) :
  sum_card_values_as_ace_one cards <= fst (hand_value cards).
Proof.
  destruct (hand_value_shape cards) as (T & _). lia.
Qed.

Lemma hand_value_ge_length (cards : list Card) :
  Z.of_nat (length cards) <= fst (hand_value cards).
Proof.
  pose proof (hand_value_ge_sum cards). pose proof (sum_ace_one_length cards).
  lia.
Qed.

(** The flag [hand_value] returns, simplified: an Ace is present and the
    total lies between 11 and 21. *)
Lemma hand_value_flag (cards : list Card) :
  snd (hand_value cards)
  = any_ace cards && (fst (hand_value cards) <=? 21)
    && (11 <=? fst (hand_value cards)).
Proof.
  unfold hand_value. cbn [fst snd].
  set (total := fst (hand_value_loop cards)).
  destruct (any_ace cards); cbn [andb]; [|reflexivity].
  replace (total + 0) with total by lia.
  destruct (total <=? 21); cbn [andb]; [|reflexivity].
  replace (total - 10 <? total) with true by (symmetry; apply Z.ltb_lt; lia).
  rewrite andb_true_r.
  destruct (Z.leb_spec 1 (total - 10)), (Z.leb_spec 11 total);
    try reflexivity; lia.
Qed.

(** The local [is_soft] of [hand_value], the one it drops, is the
    softness its docstring describes: an Ace is present, the total is at
    most 21, and fewer Aces were downgraded than the hand holds. *)
Lemma hand_value_is_soft_local_spec (cards : list Card) :
  hand_value_is_soft_local cards = true
  <-> any_ace cards = true
      /\ fst (hand_value cards) <= 21
      /\ (downgrades cards < num_aces cards)%nat.
Proof.
  unfold hand_value_is_soft_local, downgrades.
  change (fst (hand_value_loop cards)) with (fst (hand_value cards)).
  destruct (hand_value_shape cards) as (T & L & B & _).
  rewrite !andb_true_iff, negb_true_iff, Z.eqb_neq, Z.leb_le.
  rewrite any_ace_num_aces. split.
  - intros [[[A1 A2] _] A3]. repeat split; lia.
  - intros (A1 & A2 & A3). repeat split; lia.
Qed.

(** The softness test of the dealer agrees, on every hand, with the
    local [is_soft] of [hand_value]. *)
Lemma dealer_soft_detection_local (cards : list Card) :
  dealer_soft_detection cards = hand_value_is_soft_local cards.
Proof.
  apply eq_true_iff_eq. rewrite hand_value_is_soft_local_spec.
  unfold dealer_soft_detection, downgrades.
  destruct (hand_value_shape cards) as (T & L & B & _).
  rewrite andb_true_iff, Z.leb_le, any_ace_num_aces. split.
  - intros [A1 A2]. repeat split; lia.
  - intros (A1 & A2 & A3). split; lia.
Qed.

Lemma dealer_is_soft_detection (cards : list Card) :
  dealer_is_soft cards
  = dealer_soft_detection cards && (fst (hand_value cards) =? 17).
Proof. reflexivity. Qed.

(** C3 (the code departs from the claim).  On an Ace and two sixes, of
    any suits, [hand_value] returns the total 13 with the flag [True],
    although the only Ace of the hand has been downgraded to 1: the
    equivalence between the flag and "an Ace is present, the total is
    at most 21, fewer Aces were downgraded than the hand holds" fails
    there. *)
Theorem hand_value_flag_after_downgrade (s1 s2 s3 : Suit) :
  let cards := [RA of s1; R6 of s2; R6 of s3] in
  hand_value cards = (13, true)
  /\ num_aces cards = 1%nat
  /\ downgrades cards = 1%nat
  /\ hand_value_is_soft_local cards = false
  /\ ~ (snd (hand_value cards) = true
        <-> any_ace cards = true
            /\ fst (hand_value cards) <= 21
            /\ (downgrades cards < num_aces cards)%nat).
Proof.
  cbv zeta. repeat split; try reflexivity.
  intros [H _]. specialize (H eq_refl). destruct H as (_ & _ & H).
  change (1 < 1)%nat in H. lia.
Qed.

(** The other values the specification lists for the evaluator hold. *)
Lemma hand_value_examples (s1 s2 : Suit) :
  hand_value [] = (0, false)
  /\ hand_value [RA of s1; RA of s2] = (12, true)
  /\ hand_value [RA of s1; RK of s2] = (21, true).
Proof. repeat split. Qed.

Lemma hand_value_no_ace (cards : list Card) :
  any_ace cards = false -> snd (hand_value cards) = false.
Proof.
  intros H. rewrite hand_value_flag, H. reflexivity.
Qed.

(** C6 (the code departs from the claim).  A dealer who holds two sixes
    and draws an Ace goes round the loop with the hand 6, 6, A.  On that
    hand the softness test of [dealer_play] answers [False], with or
    without its conjunct [v == 17] - the total 13 is the sum with the
    Ace as 1 - while the flag returned by [hand_value] is [True]. *)
Theorem dealer_soft_detection_against_flag (s1 s2 s3 : Suit) :
  let cards := [R6 of s1; R6 of s2; RA of s3] in
  (forall fuel deck,
     dealer_loop (S fuel) (deck ++ [RA of s3]) [R6 of s1; R6 of s2]
     = dealer_loop fuel deck cards)
  /\ fst (hand_value cards) = 13
  /\ sum_card_values_as_ace_one cards = 13
  /\ dealer_soft_detection cards = false
  /\ dealer_is_soft cards = false
  /\ snd (hand_value cards) = true
  /\ dealer_soft_detection cards <> snd (hand_value cards).
Proof.
  cbv zeta. split.
  - intros fuel deck. cbn [dealer_loop].
    change (fst (hand_value [R6 of s1; R6 of s2]) <? 17) with true.
    cbv iota. now rewrite deal_one, pop_snoc.
  - repeat split. discriminate.
Qed.

(** ** The dealer *)

Lemma dealer_loop_stop (fuel : nat) (deck hand : list Card) :
  17 <= fst (hand_value hand) ->
  dealer_loop (S fuel) deck hand = Ret (deck, hand).
Proof.
  intros H. cbn [dealer_loop].
  destruct (Z.ltb_spec (fst (hand_value hand)) 17) as [L|L]; [lia|].
  now destruct (_ && _).
Qed.

Lemma dealer_loop_draw (fuel : nat) (deck hand : list Card) :
  fst (hand_value hand) < 17 ->
  dealer_loop (S fuel) deck hand
  = ('(cs, deck') <- deal deck 1 ;; dealer_loop fuel deck' (hand ++ cs)).
Proof.
  intros H. cbn [dealer_loop].
  destruct (Z.ltb_spec (fst (hand_value hand)) 17) as [L|L]; [reflexivity|lia].
Qed.

Lemma dealer_loop_draw_card (fuel : nat) (deck hand : list Card) (c : Card) :
  fst (hand_value hand) < 17 ->
  dealer_loop (S fuel) (deck ++ [c]) hand = dealer_loop fuel deck (hand ++ [c]).
Proof.
  intros H. rewrite (dealer_loop_draw _ _ _ H), deal_one, pop_snoc.
  reflexivity.
Qed.

Lemma dealer_loop_draw_empty (fuel : nat) (hand : list Card) :
  fst (hand_value hand) < 17 ->
  dealer_loop (S fuel) [] hand = Raise IndexError.
Proof.
  intros H. now rewrite (dealer_loop_draw _ _ _ H).
Qed.

(** Every list is empty or ends in a card: the two cases of [pop]. *)
Lemma deck_cases (deck : list Card) :
  deck = [] \/ exists rest c, deck = rest ++ [c].
Proof.
  destruct (pop deck) as [[c rest]|] eqn:E.
  - right. exists rest, c. now apply pop_some.
  - left. now apply pop_nil.
Qed.

(** The measure of the loop: the sum with every Ace as 1 grows with each
    card, and stays below 17 as long as the loop goes on. *)
Lemma dealer_measure (hand : list Card) (c : Card) :
  sum_card_values_as_ace_one hand < sum_card_values_as_ace_one (hand ++ [c])
  /\ (fst (hand_value hand) < 17 -> sum_card_values_as_ace_one hand < 17).
Proof.
  rewrite sum_ace_one_app, sum_ace_one_single.
  pose proof (low_value_pos c). pose proof (hand_value_ge_sum hand). lia.
Qed.

Lemma dealer_loop_fuel (fuel : nat) : forall deck hand,
  (0 < fuel)%nat ->
  17 - sum_card_values_as_ace_one hand < Z.of_nat fuel ->
  dealer_loop fuel deck hand <> OutOfFuel
  /\ dealer_loop fuel deck hand <> Diverges.
Proof.
  induction fuel as [|fuel IH]; intros deck hand P F; [lia|].
  destruct (Z.ltb_spec (fst (hand_value hand)) 17) as [L|L].
  - destruct (deck_cases deck) as [->|(rest & c & ->)].
    + rewrite dealer_loop_draw_empty by exact L. split; discriminate.
    + rewrite dealer_loop_draw_card by exact L.
      destruct (dealer_measure hand c) as [M B]. specialize (B L).
      apply IH; lia.
  - rewrite dealer_loop_stop by exact L. split; discriminate.
Qed.

Lemma dealer_loop_fuel_deck (fuel : nat) : forall deck hand,
  (length deck < fuel)%nat -> dealer_loop fuel deck hand <> OutOfFuel.
Proof.
  induction fuel as [|fuel IH]; intros deck hand F; [lia|].
  destruct (Z.ltb_spec (fst (hand_value hand)) 17) as [L|L].
  - destruct (deck_cases deck) as [->|(rest & c & ->)].
    + rewrite dealer_loop_draw_empty by exact L. discriminate.
    + rewrite dealer_loop_draw_card by exact L.
      rewrite length_app in F. simpl in F. apply IH. lia.
  - rewrite dealer_loop_stop by exact L. discriminate.
Qed.

(** [dealer_play] never uses up the iterations it is given. *)
Lemma dealer_play_fuel (deck hand : list Card) :
  dealer_play deck hand <> OutOfFuel.
Proof.
  apply dealer_loop_fuel_deck. lia.
Qed.

(** What [dealer_play] returns: the hand extended by the cards popped
    off the deck, with a total of 17 or more; no card is drawn from 17
    on, at least one below 17; and the hand ends with at most 17 cards
    unless it started with more. *)
Lemma dealer_loop_ret (fuel : nat) : forall deck hand deck' hand',
  dealer_loop fuel deck hand = Ret (deck', hand') ->
  exists drawn,
    hand' = hand ++ drawn
    /\ deck = deck' ++ rev drawn
    /\ 17 <= fst (hand_value hand')
    /\ (17 <= fst (hand_value hand) -> drawn = [])
    /\ (fst (hand_value hand) < 17 -> (0 < length drawn)%nat)
    /\ (drawn <> [] -> Z.of_nat (length hand') <= 17).
Proof.
  induction fuel as [|fuel IH]; intros deck hand deck' hand' H;
    [discriminate|].
  destruct (Z.ltb_spec (fst (hand_value hand)) 17) as [L|L].
  - destruct (deck_cases deck) as [->|(rest & c & ->)].
    + rewrite dealer_loop_draw_empty in H by exact L. discriminate.
    + rewrite dealer_loop_draw_card in H by exact L.
      apply IH in H as (drawn & -> & -> & T & Z0 & P & B).
      exists (c :: drawn). rewrite <- !app_assoc in *. cbn [app rev] in *.
      split; [reflexivity|]. split; [reflexivity|]. split; [exact T|].
      split; [lia|]. split; [cbn [length]; lia|].
      intros _. destruct drawn as [|d drawn].
      * rewrite length_app. cbn [length].
        pose proof (hand_value_ge_length hand). lia.
      * apply B. discriminate.
  - rewrite dealer_loop_stop in H by exact L. injection H as <- <-.
    exists []. rewrite !app_nil_r. cbn [rev length].
    split; [reflexivity|]. split; [reflexivity|]. split; [exact L|].
    split; [reflexivity|]. split; [lia|]. congruence.
Qed.

(** [dealer_play] can only fail by popping the empty deck, and only a
    deck of fewer than [17 - m] cards can run out, [m] being the sum of
    the hand with every Ace as 1. *)
Lemma dealer_loop_raise (fuel : nat) : forall deck hand e,
  dealer_loop fuel deck hand = Raise e ->
  e = IndexError
  /\ Z.of_nat (length deck) + sum_card_values_as_ace_one hand < 17.
Proof.
  induction fuel as [|fuel IH]; intros deck hand e H; [discriminate|].
  destruct (Z.ltb_spec (fst (hand_value hand)) 17) as [L|L].
  - destruct (deck_cases deck) as [->|(rest & c & ->)].
    + rewrite dealer_loop_draw_empty in H by exact L.
      injection H as <-. split; [reflexivity|].
      pose proof (hand_value_ge_sum hand). simpl. lia.
    + rewrite dealer_loop_draw_card in H by exact L.
      apply IH in H as [-> B]. split; [reflexivity|].
      rewrite sum_ace_one_app, sum_ace_one_single in B.
      pose proof (low_value_pos c). rewrite length_app. simpl. lia.
  - rewrite dealer_loop_stop in H by exact L. discriminate.
Qed.

Lemma dealer_play_draw_card (deck hand : list Card) (c : Card) :
  fst (hand_value hand) < 17 ->
  dealer_play (deck ++ [c]) hand = dealer_play deck (hand ++ [c]).
Proof.
  intros L. unfold dealer_play. rewrite length_app, Nat.add_1_r.
  now apply dealer_loop_draw_card.
Qed.

(** C7.  The dealer's policy.  Below 17 the dealer draws one card and
    goes round the loop again (and fails if the deck is empty); on a
    soft 17, and more generally from 17 on, busts included, the dealer
    stands and the hand and the deck are returned as they are.  An Ace
    and a six are returned unchanged.  On a hard 16 exactly one card is
    drawn, after which the total is 17 or more; and whatever the hand
    below 17, a hand that is returned has been extended by at least one
    card to a total of 17 or more. *)
Theorem dealer_play_policy (deck hand : list Card) :
  let v := fst (hand_value hand) in
  (v < 17 ->
   forall fuel,
     dealer_loop (S fuel) deck hand
     = ('(cs, deck') <- deal deck 1 ;; dealer_loop fuel deck' (hand ++ cs)))
  /\ (v < 17 ->
      forall rest c, deck = rest ++ [c] ->
        dealer_play deck hand = dealer_play rest (hand ++ [c]))
  /\ (v < 17 -> deck = [] -> dealer_play deck hand = Raise IndexError)
  /\ (v = 17 -> snd (hand_value hand) = true ->
      dealer_play deck hand = Ret (deck, hand))
  /\ (17 <= v -> dealer_play deck hand = Ret (deck, hand))
  /\ (forall s1 s2,
        dealer_play deck [RA of s1; R6 of s2]
        = Ret (deck, [RA of s1; R6 of s2]))
  /\ (v = 16 -> sum_card_values_as_ace_one hand = 16 ->
      forall rest c, deck = rest ++ [c] ->
        dealer_play deck hand = Ret (rest, hand ++ [c])
        /\ 17 <= fst (hand_value (hand ++ [c])))
  /\ (v < 17 ->
      forall deck' hand', dealer_play deck hand = Ret (deck', hand') ->
        exists c more,
          hand' = hand ++ c :: more
          /\ deck = deck' ++ rev (c :: more)
          /\ 17 <= fst (hand_value hand')).
Proof.
  cbv zeta.
  split; [intros L fuel; now apply dealer_loop_draw|].
  split; [intros L rest c ->; now apply dealer_play_draw_card|].
  split; [intros L ->; now apply dealer_loop_draw_empty|].
  split; [intros E _; apply dealer_loop_stop; lia|].
  split; [intros L; now apply dealer_loop_stop|].
  split; [intros s1 s2; now apply dealer_loop_stop|].
  split.
  - intros E M rest c ->.
    assert (T : 17 <= fst (hand_value (hand ++ [c]))).
    { pose proof (hand_value_ge_sum (hand ++ [c])) as G.
      rewrite sum_ace_one_app, sum_ace_one_single in G.
      pose proof (low_value_pos c). lia. }
    split; [|exact T].
    rewrite dealer_play_draw_card by lia. now apply dealer_loop_stop.
  - intros L deck' hand' H.
    apply dealer_loop_ret in H as (drawn & -> & -> & T & _ & P & _).
    specialize (P L). destruct drawn as [|c more]; [simpl in P; lia|].
    now exists c, more.
Qed.

Lemma dealer_play_policy_witness :
  dealer_play [R5 of Spade] [RK of Heart; R6 of Club]
  = Ret ([], [RK of Heart; R6 of Club; R5 of Spade])
  /\ 17 <= fst (hand_value [RK of Heart; R6 of Club; R5 of Spade]).
Proof.
  destruct (dealer_play_policy [R5 of Spade] [RK of Heart; R6 of Club])
    as (_ & _ & _ & _ & _ & _ & H & _).
  apply (H eq_refl eq_refl [] (R5 of Spade) eq_refl).
Defined.

(** C10, as the claim states it, fails: an iteration of the loop can
    go on with a SMALLER evaluated total.  With an Ace and a five the
    dealer holds a soft 16; the six then drawn turns the Ace into a 1
    and the total into 12, and the loop goes on. *)
Lemma dealer_total_not_increasing :
  let hand := [RA of Spade; R5 of Heart] in
  let c := R6 of Club in
  fst (hand_value hand) = 16
  /\ fst (hand_value (hand ++ [c])) = 12
  /\ (forall fuel deck,
        dealer_loop (S fuel) (deck ++ [c]) hand
        = dealer_loop fuel deck (hand ++ [c]))
  /\ ~ (forall fuel deck hand c,
          dealer_loop (S fuel) (deck ++ [c]) hand = Ret (deck ++ [c], hand)
          \/ fst (hand_value hand) < fst (hand_value (hand ++ [c]))).
Proof.
  cbv zeta. split; [reflexivity|]. split; [reflexivity|]. split.
  - intros fuel deck. now apply dealer_loop_draw_card.
  - intros H.
    destruct (H O [] [RA of Spade; R5 of Heart] (R6 of Club)) as [E|E].
    + discriminate E.
    + vm_compute in E. discriminate E.
Qed.

(** C10, amended.  The loop of [dealer_play] terminates, by the measure
    [m], the sum of the hand with every Ace as 1: every card drawn
    raises [m], and [m] is below 17 whenever the loop goes on, since it
    never exceeds the evaluated total.  So [17 - m] iterations and one
    more always suffice, whatever the deck; and on a deck of at least
    [17 - m] cards [dealer_play] returns a hand of total 17 or more. *)
Theorem dealer_play_terminates (deck hand : list Card) :
  let m := sum_card_values_as_ace_one hand in
  (forall c, m < sum_card_values_as_ace_one (hand ++ [c]))
  /\ (fst (hand_value hand) < 17 -> m < 17)
  /\ (forall fuel,
        (0 < fuel)%nat -> 17 - m < Z.of_nat fuel ->
        dealer_loop fuel deck hand <> OutOfFuel
        /\ dealer_loop fuel deck hand <> Diverges)
  /\ (17 - m <= Z.of_nat (length deck) ->
      exists deck' hand',
        dealer_play deck hand = Ret (deck', hand')
        /\ 17 <= fst (hand_value hand')).
Proof.
  cbv zeta.
  split; [intros c; apply dealer_measure|].
  split; [apply (dealer_measure hand (R2 of Spade))|].
  split; [intros fuel P F; now apply dealer_loop_fuel|].
  intros D. unfold dealer_play.
  destruct (dealer_loop (S (length deck)) deck hand) as [[deck' hand']|e| |]
    eqn:E.
  - exists deck', hand'. split; [reflexivity|].
    apply dealer_loop_ret in E as (drawn & _ & _ & T & _). exact T.
  - apply dealer_loop_raise in E as [_ B]. lia.
  - exfalso. revert E. apply dealer_loop_fuel; lia.
  - exfalso. revert E. apply dealer_loop_fuel; lia.
Qed.

Lemma dealer_play_terminates_witness :
  exists deck' hand',
    dealer_play [R5 of Spade] [RK of Heart; R6 of Club] = Ret (deck', hand')
    /\ 17 <= fst (hand_value hand').
Proof.
  destruct (dealer_play_terminates [R5 of Spade] [RK of Heart; R6 of Club])
    as (_ & _ & _ & H).
  apply H. vm_compute. discriminate.
Defined.

(** ** The prompts *)

Lemma prompt_action_ret (can_double : bool) (lines : list Line) :
  forall action lines',
    prompt_action can_double lines = Ret (action, lines') ->
    (length lines' < length lines)%nat
    /\ (action = double -> can_double = true).
Proof.
  induction lines as [|l lines IH]; intros action lines' H;
    cbn [prompt_action] in H; [discriminate|].
  cbn [length].
  destruct l; try (apply IH in H; split; [lia|tauto]);
    try (injection H as <- <-; split; [lia|discriminate]).
  destruct can_double.
  - injection H as <- <-. split; [lia|reflexivity].
  - apply IH in H. split; [lia|tauto].
Qed.

Lemma prompt_action_fails (can_double : bool) (lines : list Line) :
  (exists action lines', prompt_action can_double lines = Ret (action, lines'))
  \/ prompt_action can_double lines = Raise EOFError.
Proof.
  induction lines as [|l lines IH]; cbn [prompt_action]; [now right|].
  destruct l; try exact IH; try solve [left; eauto].
  destruct can_double; [left; eauto | exact IH].
Qed.

Lemma prompt_bet_ret (chips : Z) (lines : list Line) :
  forall bet lines',
    prompt_bet chips lines = Ret (bet, lines') ->
    (length lines' < length lines)%nat
    /\ (forall b, bet = Some b -> 1 <= b <= chips).
Proof.
  induction lines as [|l lines IH]; intros bet lines' H;
    cbn [prompt_bet] in H; [discriminate|].
  cbn [length].
  destruct l; try (apply IH in H; split; [lia|tauto]);
    try (injection H as <- <-; split; [lia|discriminate]).
  destruct ((1 <=? z) && (z <=? chips)) eqn:E.
  - injection H as <- <-. split; [lia|].
    intros b [= <-]. apply andb_true_iff in E as [A B]. lia.
  - apply IH in H. split; [lia|tauto].
Qed.

Lemma prompt_bet_fails (chips : Z) (lines : list Line) :
  (exists bet lines', prompt_bet chips lines = Ret (bet, lines'))
  \/ prompt_bet chips lines = Diverges.
Proof.
  induction lines as [|l lines IH]; cbn [prompt_bet]; [now right|].
  destruct l; try exact IH; try solve [left; eauto].
  destruct (_ && _); [left; eauto | exact IH].
Qed.

(** ** The player's loop *)

Lemma player_loop_step (fuel : nat) (chips bet original_bet : Z)
    (player_cards dealer_cards deck : list Card) (lines : list Line) :
  player_loop (S fuel) chips bet original_bet
    player_cards dealer_cards deck lines
  = ('(action, lines) <- prompt_action (bet <=? chips - bet) lines ;;
     match action with
     | hit =>
         '(cs, deck) <- deal deck 1 ;;
         if 21 <? fst (hand_value (player_cards ++ cs)) then
           Ret (inl (mkRound (chips - bet) bet original_bet false
                       (player_cards ++ cs) dealer_cards deck lines
                       ExitHitBust))
         else
           player_loop fuel chips bet original_bet
             (player_cards ++ cs) dealer_cards deck lines
     | double =>
         '(cs, deck) <- deal deck 1 ;;
         if 21 <? fst (hand_value (player_cards ++ cs)) then
           Ret (inl (mkRound (chips - bet - 0) (bet * 2) original_bet true
                       (player_cards ++ cs) dealer_cards deck lines
                       ExitDoubleBust))
         else
           Ret (inr (mkStanding (chips - bet) (bet * 2) true
                       (player_cards ++ cs) deck lines))
     | stand =>
         Ret (inr (mkStanding chips bet false player_cards deck lines))
     end).
Proof. reflexivity. Qed.

Lemma player_loop_ret (fuel : nat) :
  forall chips bet original_bet player_cards dealer_cards deck lines r,
    player_loop fuel chips bet original_bet
      player_cards dealer_cards deck lines = Ret r ->
    Z.of_nat (length player_cards) <= 21 ->
    match r with
    | inl round =>
        exists drawn,
          r_player_cards round = player_cards ++ drawn
          /\ deck = r_deck round ++ rev drawn
          /\ r_dealer_cards round = dealer_cards
          /\ r_original_bet round = original_bet
          /\ Z.of_nat (length (r_player_cards round)) <= 22
          /\ 21 < fst (hand_value (r_player_cards round))
          /\ (length (r_input round) < length lines)%nat
          /\ stakes_after_loop chips bet (r_doubled round)
               (r_chips round + (if r_doubled round then 0 else bet))
               (r_bet round)
          /\ r_exit round
             = (if r_doubled round then ExitDoubleBust else ExitHitBust)
    | inr s =>
        exists drawn,
          s_player_cards s = player_cards ++ drawn
          /\ s_deck s ++ rev drawn = deck
          /\ Z.of_nat (length (s_player_cards s)) <= 22
          /\ (length (s_input s) < length lines)%nat
          /\ stakes_after_loop chips bet (s_doubled s) (s_chips s) (s_bet s)
          /\ (s_doubled s = true -> fst (hand_value (s_player_cards s)) <= 21)
    end.
Proof.
  induction fuel as [|fuel IH];
    intros chips bet ob pc dc deck lines r H Len; [discriminate|].
  rewrite player_loop_step in H.
  destruct (prompt_action (bet <=? chips - bet) lines)
    as [[action lines']| | |] eqn:PA; try discriminate.
  apply prompt_action_ret in PA as [PL PD]. cbn [bind] in H.
  destruct action.
  - (* hit *)
    rewrite deal_one in H.
    destruct (pop deck) as [[c rest]|] eqn:P; [|discriminate].
    apply pop_some in P. subst deck. cbn [bind] in H.
    destruct (Z.ltb_spec 21 (fst (hand_value (pc ++ [c])))) as [B|B].
    + injection H as <-. exists [c]. cbn [r_player_cards r_deck
        r_dealer_cards r_original_bet r_doubled r_chips r_bet r_exit
        r_input rev app].
      rewrite length_app. cbn [length]. unfold stakes_after_loop.
      conj_auto.
    + assert (Len' : Z.of_nat (length (pc ++ [c])) <= 21).
      { pose proof (hand_value_ge_length (pc ++ [c])). lia. }
      specialize (IH _ _ _ _ _ _ _ _ H Len').
      destruct r as [round|s].
      * destruct IH as (drawn & E1 & E2 & E3 & E4 & E5 & E6 & E7 & E8).
        exists (c :: drawn).
        split; [rewrite E1, <- app_assoc; reflexivity|].
        split; [rewrite E2; cbn [rev]; now rewrite app_assoc|].
        repeat (split; [first [assumption | lia]|]).
        exact E8.
      * destruct IH as (drawn & E1 & E2 & E3 & E4 & E5).
        exists (c :: drawn).
        split; [rewrite E1, <- app_assoc; reflexivity|].
        split; [rewrite <- E2; cbn [rev]; now rewrite app_assoc|].
        repeat (split; [first [assumption | lia]|]).
        exact E5.
  - (* stand *)
    injection H as <-. exists []. cbn [s_player_cards s_deck s_doubled
      s_chips s_bet s_input rev]. rewrite !app_nil_r.
    unfold stakes_after_loop. conj_auto.
  - (* double *)
    specialize (PD eq_refl). apply Z.leb_le in PD.
    rewrite deal_one in H.
    destruct (pop deck) as [[c rest]|] eqn:P; [|discriminate].
    apply pop_some in P. subst deck. cbn [bind] in H.
    destruct (Z.ltb_spec 21 (fst (hand_value (pc ++ [c])))) as [B|B];
      injection H as <-; exists [c].
    + cbn [r_player_cards r_deck r_dealer_cards r_original_bet r_doubled
        r_chips r_bet r_exit r_input rev app].
      rewrite length_app. cbn [length]. unfold stakes_after_loop.
      conj_auto.
    + cbn [s_player_cards s_deck s_doubled s_chips s_bet s_input rev app].
      rewrite length_app. cbn [length]. unfold stakes_after_loop.
      conj_auto.
Qed.

(** On a deck that holds enough cards for a hand of 22, the player's
    loop returns or stops at the end of the input: it neither pops an
    empty deck nor uses up its iterations. *)
Lemma player_loop_safe (fuel : nat) :
  forall chips bet original_bet player_cards dealer_cards deck lines,
    Z.of_nat (length player_cards) <= 21 ->
    (22 <= length deck + length player_cards)%nat ->
    (length lines < fuel)%nat ->
    (exists r, player_loop fuel chips bet original_bet
                 player_cards dealer_cards deck lines = Ret r)
    \/ player_loop fuel chips bet original_bet
         player_cards dealer_cards deck lines = Raise EOFError.
Proof.
  induction fuel as [|fuel IH];
    intros chips bet ob pc dc deck lines Len D F; [lia|].
  rewrite player_loop_step.
  destruct (prompt_action_fails (bet <=? chips - bet) lines)
    as [(action & lines' & PA)|PA]; rewrite PA; [|now right].
  apply prompt_action_ret in PA as [PL _]. cbn [bind].
  destruct (deck_cases deck) as [->|(rest & c & ->)];
    [cbn [length] in D; lia|].
  rewrite length_app in D. cbn [length] in D.
  destruct action; rewrite ?deal_one, ?pop_snoc; cbn [bind].
  - destruct (Z.ltb_spec 21 (fst (hand_value (pc ++ [c])))) as [B|B].
    + left. eauto.
    + pose proof (hand_value_ge_length (pc ++ [c])) as G.
      apply IH; try lia.
      rewrite length_app. cbn [length]. lia.
  - left. eauto.
  - destruct (21 <? _); left; eauto.
Qed.

(** A hand of two cards never busts. *)
Lemma two_cards_total (a b : Card) : fst (hand_value [a; b]) <= 21.
Proof.
  destruct a as [[] sa], b as [[] sb]; vm_compute; discriminate.
Qed.

(** ** One round *)

Lemma play_round_from_bet_ret
    (chips bet : Z) (player dealer deck : list Card) (lines : list Line)
    (round : Round) :
  play_round_from_bet chips bet player dealer deck lines = Ret round ->
  (length player = 2)%nat ->
  exists drawn_p drawn_d,
    r_original_bet round = bet
    /\ r_player_cards round = player ++ drawn_p
    /\ r_dealer_cards round = dealer ++ drawn_d
    /\ deck = (r_deck round ++ rev drawn_d) ++ rev drawn_p
    /\ Z.of_nat (length (r_player_cards round)) <= 22
    /\ (drawn_d <> [] -> Z.of_nat (length (r_dealer_cards round)) <= 17)
    /\ (length (r_input round) <= length lines)%nat
    /\ round_ends chips bet player dealer drawn_p drawn_d round.
Proof.
  intros H Len2. unfold play_round_from_bet in H.
  assert (Len : Z.of_nat (length player) <= 21) by lia.
  destruct (is_blackjack player) eqn:PN, (is_blackjack dealer) eqn:DN;
    cbn [orb andb negb] in H.
  - (* both naturals *)
    injection H as <-. exists [], []. unfold round_ends.
    cbn [r_player_cards r_deck r_dealer_cards r_original_bet r_doubled
         r_chips r_bet r_exit r_input rev app length].
    rewrite ?app_nil_r. conj_try. right. right. conj_auto.
  - (* the player alone *)
    destruct (int_1_5_times bet) as [payout| | |] eqn:PAY;
      try discriminate. cbn [bind] in H.
    injection H as <-. exists [], []. unfold round_ends.
    cbn [r_player_cards r_deck r_dealer_cards r_original_bet r_doubled
         r_chips r_bet r_exit r_input rev app length].
    rewrite ?app_nil_r. conj_try. left. conj_try. now exists payout.
  - (* the dealer alone *)
    injection H as <-. exists [], []. unfold round_ends.
    cbn [r_player_cards r_deck r_dealer_cards r_original_bet r_doubled
         r_chips r_bet r_exit r_input rev app length].
    rewrite ?app_nil_r. conj_try. right. left. conj_auto.
  - destruct (player_loop (S (length lines)) chips bet bet
                player dealer deck lines) as [[r|s]| | |] eqn:PL;
      try discriminate; cbn [bind] in H;
      apply player_loop_ret in PL; try exact Len.
    + injection H as <-.
      destruct PL as (drawn & E1 & E2 & E3 & E4 & E5 & E6 & E7 & E8 & E9).
      exists drawn, []. cbn [rev]. rewrite !app_nil_r.
      split; [exact E4|]. split; [exact E1|]. split; [exact E3|].
      split; [exact E2|]. split; [exact E5|]. split; [congruence|].
      split; [lia|].
      unfold round_ends. rewrite E9. unfold stakes_after_loop in E8.
      destruct (r_doubled r); conj_auto.
    + destruct PL as (drawn & E1 & E2 & E3 & E4 & E5 & E6).
      destruct (dealer_play (s_deck s) dealer) as [[deck' dealer']| | |]
        eqn:DP; try discriminate. cbn [bind] in H. injection H as <-.
      apply dealer_loop_ret in DP as (drawn_d & -> & D2 & D3 & _ & _ & D6).
      exists drawn, drawn_d.
      cbn [r_player_cards r_deck r_dealer_cards r_original_bet r_doubled
           r_chips r_bet r_exit r_input].
      split; [reflexivity|]. split; [exact E1|]. split; [reflexivity|].
      split; [now rewrite <- D2|]. split; [exact E3|]. split; [exact D6|].
      split; [lia|].
      unfold round_ends.
      cbn [r_player_cards r_deck r_dealer_cards r_original_bet r_doubled
           r_chips r_bet r_exit r_input].
      split; [reflexivity|]. split; [exact D3|].
      unfold stakes_after_loop in E5.
      destruct (s_doubled s).
      * destruct E5 as (-> & -> & E5). specialize (E6 eq_refl). conj_auto.
      * destruct E5 as (-> & ->). conj_auto.
Qed.

Lemma int_1_5_times_fails (bet : Z) :
  (exists payout, int_1_5_times bet = Ret payout)
  \/ int_1_5_times bet = Raise OverflowError.
Proof.
  unfold int_1_5_times.
  destruct (2 ^ 1024 <=? _); [now right|].
  destruct (2 ^ 1025 <=? _); [now right|]. left. eauto.
Qed.

(** With two cards in each hand and 35 cards or more left in the deck,
    the round cannot pop an empty deck: it returns, or it stops at the
    end of the input, or the payout of a natural overflows. *)
Lemma play_round_from_bet_safe
    (chips bet : Z) (player dealer deck : list Card) (lines : list Line) :
  (length player = 2)%nat -> (length dealer = 2)%nat ->
  (35 <= length deck)%nat ->
  (exists round,
     play_round_from_bet chips bet player dealer deck lines = Ret round)
  \/ play_round_from_bet chips bet player dealer deck lines = Raise EOFError
  \/ play_round_from_bet chips bet player dealer deck lines
     = Raise OverflowError.
Proof.
  intros LP LD D. unfold play_round_from_bet.
  destruct (is_blackjack player), (is_blackjack dealer);
    cbn [orb andb negb]; try (left; eauto; fail).
  - destruct (int_1_5_times_fails bet) as [(payout & ->)| ->];
      cbn [bind]; [left; eauto | right; now right].
  - destruct (player_loop_safe (S (length lines)) chips bet bet
                player dealer deck lines) as [(r & PL)|PL];
      try lia; rewrite PL; cbn [bind]; [|right; now left].
    apply player_loop_ret in PL; [|lia].
    destruct r as [round|s]; [left; eauto|].
    destruct PL as (drawn & E1 & E2 & E3 & _).
    assert (DS : (15 <= length (s_deck s))%nat).
    { rewrite <- E2, length_app, length_rev in D.
      rewrite E1, length_app in E3. lia. }
    pose proof (sum_ace_one_length dealer) as M.
    destruct (dealer_play (s_deck s) dealer) as [[deck' dealer']|e| |]
      eqn:DP; cbn [bind].
    + left. eauto.
    + apply dealer_loop_raise in DP as [_ B]. lia.
    + exfalso. revert DP. apply dealer_loop_fuel; lia.
    + exfalso. revert DP. apply dealer_play_fuel.
Qed.

(** C9.  In a round played on a shuffle of the 52 cards, whatever the
    chips and the input, no [deal] pops an empty deck: the round
    returns, or stops at the end of the input (or on the overflow of a
    natural's payout), and never with [IndexError].  When it returns, at
    most 39 cards have been dealt in all - the player's hand and the
    dealer's - so strictly fewer than 52, and the deck is not empty. *)
Theorem shoe_never_exhausted
    (chips : Z) (cards : list Card) (lines : list Line) :
  Permutation fresh_cards cards ->
  ((exists round lines',
      play_round_locals chips cards lines = Ret (round, lines'))
   \/ play_round_locals chips cards lines = Raise EOFError
   \/ play_round_locals chips cards lines = Raise OverflowError
   \/ play_round_locals chips cards lines = Diverges)
  /\ play_round chips cards lines <> Raise IndexError
  /\ forall round lines',
       play_round_locals chips cards lines = Ret (Some round, lines') ->
       let dealt :=
         (length (r_player_cards round) + length (r_dealer_cards round))%nat in
       (length (r_deck round) + dealt = 52)%nat
       /\ (dealt <= 39)%nat
       /\ (dealt < 52)%nat
       /\ r_deck round <> [].
Proof.
  intros P. apply Permutation_length in P.
  change (length fresh_cards) with 52%nat in P.
  unfold play_round, play_round_locals.
  destruct (deal_enough 2 cards) as (player & d1 & D1); [lia|].
  rewrite D1. cbn [bind]. apply deal_ret in D1 as [E1 LP].
  destruct (deal_enough 2 d1) as (dealer & deck & D2).
  { subst cards. rewrite length_app, length_rev in P. lia. }
  rewrite D2. cbn [bind]. apply deal_ret in D2 as [E2 LD].
  assert (LDk : length deck = 48%nat).
  { subst cards d1. rewrite !length_app, !length_rev in P. lia. }
  destruct (prompt_bet_fails chips lines) as [(bet & lines1 & PB)|PB];
    rewrite PB; cbn [bind].
  2: { split; [now repeat right|]. split; discriminate. }
  destruct bet as [bet|].
  2: { split; [left; eauto|]. split; discriminate. }
  destruct (play_round_from_bet_safe chips bet player dealer deck lines1)
    as [(round & R)|[R|R]]; try lia; rewrite R; cbn [bind].
  2,3: split; [tauto|]; split; discriminate.
  split; [left; eauto|]. split; [discriminate|].
  intros round' lines' [= <- <-].
  apply play_round_from_bet_ret in R as
    (dp & dd & _ & RP & RD & DK & LP' & LD' & _); [|exact LP].
  cbv zeta.
  assert (L : (length (r_deck round) + length dd + length dp = 48)%nat).
  { rewrite DK, !length_app, !length_rev in LDk. lia. }
  assert (LD2 : (length (r_dealer_cards round) <= 17)%nat).
  { destruct dd as [|d dd].
    - rewrite RD, app_nil_r. lia.
    - assert (N : d :: dd <> []) by discriminate. specialize (LD' N). lia. }
  rewrite RP, RD, !length_app in *.
  assert (NE : (0 < length (r_deck round))%nat) by lia.
  repeat split; try lia.
  intros E. rewrite E in NE. cbn [length] in NE. lia.
Qed.

Lemma shoe_never_exhausted_witness :
  play_round 100 fresh_cards [LInt 10; LHit; LStand] <> Raise IndexError.
Proof.
  apply (shoe_never_exhausted 100 fresh_cards [LInt 10; LHit; LStand]).
  apply Permutation_refl.
Defined.

(** What [play_round_locals] does before the round proper. *)
Lemma play_round_locals_ret
    (chips : Z) (cards : list Card) (lines : list Line)
    (round : Round) (lines' : list Line) :
  play_round_locals chips cards lines = Ret (Some round, lines') ->
  exists player dealer d1 deck bet lines1,
    deal cards 2 = Ret (player, d1)
    /\ deal d1 2 = Ret (dealer, deck)
    /\ prompt_bet chips lines = Ret (Some bet, lines1)
    /\ play_round_from_bet chips bet player dealer deck lines1 = Ret round
    /\ lines' = r_input round.
Proof.
  unfold play_round_locals. intros H.
  destruct (deal cards 2) as [[player d1]| | |] eqn:D1; try discriminate.
  cbn [bind] in H.
  destruct (deal d1 2) as [[dealer deck]| | |] eqn:D2; try discriminate.
  cbn [bind] in H.
  destruct (prompt_bet chips lines) as [[[bet|] lines1]| | |] eqn:PB;
    try discriminate; cbn [bind] in H; try discriminate.
  destruct (play_round_from_bet chips bet player dealer deck lines1)
    as [r| | |] eqn:R; try discriminate. cbn [bind] in H.
  injection H as <- <-.
  now exists player, dealer, d1, deck, bet, lines1.
Qed.

(** The outcome read off the two totals, for a player who is not bust. *)
Lemma compare_outcome_totals (player dealer : list Card) :
  let pv := fst (hand_value player) in
  let dv := fst (hand_value dealer) in
  let o := compare_outcome player dealer in
  pv <= 21 ->
  (pv < dv <= 21 -> o = dealer_win)
  /\ (dv < pv -> o = player_win)
  /\ (21 < dv -> o = dealer_bust)
  /\ (pv = dv -> o = push)
  /\ o <> player_bust.
Proof.
  cbv zeta. intros P. unfold compare_outcome.
  destruct (Z.ltb_spec 21 (fst (hand_value player))); [lia|].
  destruct (Z.ltb_spec 21 (fst (hand_value dealer))),
           (Z.ltb_spec (fst (hand_value dealer)) (fst (hand_value player))),
           (Z.ltb_spec (fst (hand_value player)) (fst (hand_value dealer)));
    try lia;
    (split; [intros ?; first [reflexivity | lia]|]);
    (split; [intros ?; first [reflexivity | lia]|]);
    (split; [intros ?; first [reflexivity | lia]|]);
    (split; [intros ?; first [reflexivity | lia]|]);
    discriminate.
Qed.

(** A double that is offered and does not bust leaves the player's loop
    for the dealer's play, with the bet taken once and doubled. *)
Lemma double_leaves_loop (fuel : nat) (chips bet ob : Z)
    (pc dc deck : list Card) (c : Card) (lines : list Line) :
  (bet <=? chips - bet) = true ->
  fst (hand_value (pc ++ [c])) <= 21 ->
  player_loop (S fuel) chips bet ob pc dc (deck ++ [c]) (LDouble :: lines)
  = Ret (inr (mkStanding (chips - bet) (bet * 2) true (pc ++ [c]) deck lines)).
Proof.
  intros A B. rewrite player_loop_step. cbn [prompt_action].
  rewrite A. cbn [bind]. rewrite deal_one, pop_snoc. cbn [bind].
  destruct (Z.ltb_spec 21 (fst (hand_value (pc ++ [c])))); [lia|reflexivity].
Qed.

(** C4.  A round in which the player doubles (original bet [b]) and
    does not bust on the card drawn goes on to the final resolution,
    where the outcome is the comparison of the two hands, and is
    settled with the doubled bet on chips from which [b] was already
    taken when doubling.  Against the chips at the start of the round:
    when the dealer's total beats the player's without going bust, the
    dealer wins and the chips go down by [3 * b]; when the player's
    total beats the dealer's, or the dealer is bust, the player wins
    and the chips go up by [b] only; when the totals are equal, the
    round is a push and the chips go down by [b]. *)
Theorem doubled_round_settlement
    (chips : Z) (cards : list Card) (lines : list Line)
    (round : Round) (lines' : list Line) :
  play_round_locals chips cards lines = Ret (Some round, lines') ->
  r_doubled round = true ->
  fst (hand_value (r_player_cards round)) <= 21 ->
  let b := r_original_bet round in
  let pv := fst (hand_value (r_player_cards round)) in
  let dv := fst (hand_value (r_dealer_cards round)) in
  let o := compare_outcome (r_player_cards round) (r_dealer_cards round) in
  1 <= b
  /\ b <= chips - b
  /\ r_bet round = 2 * b
  /\ 17 <= dv
  /\ r_exit round = ExitFinal o
  /\ (pv < dv <= 21 -> o = dealer_win /\ r_chips round = chips - 3 * b)
  /\ (dv < pv -> o = player_win /\ r_chips round = chips + b)
  /\ (21 < dv -> o = dealer_bust /\ r_chips round = chips + b)
  /\ (pv = dv -> o = push /\ r_chips round = chips - b)
  /\ match o with
     | dealer_win => r_chips round = chips - 3 * b
     | player_win | dealer_bust => r_chips round = chips + b
     | push => r_chips round = chips - b
     | player_bust => False
     end
  /\ play_round chips cards lines = Ret (Some true, r_chips round, lines').
Proof.
  intros H Dbl NB. cbv zeta.
  assert (PR : play_round chips cards lines
               = Ret (Some true, r_chips round, lines')).
  { unfold play_round. now rewrite H. }
  apply play_round_locals_ret in H
    as (player & dealer & d1 & deck & bet & lines1 & D1 & D2 & PB & R & _).
  apply prompt_bet_ret in PB as [_ PB]. specialize (PB bet eq_refl).
  apply deal_ret in D1 as [_ LP].
  apply play_round_from_bet_ret in R
    as (dp & dd & OB & _ & _ & _ & _ & _ & _ & RE); [|exact LP].
  unfold round_ends in RE. rewrite OB.
  destruct (r_exit round) as [| | |o].
  - destruct RE as (D & _). congruence.
  - destruct RE as (D & _). congruence.
  - destruct RE as (_ & _ & _ & B & _). lia.
  - rewrite Dbl in RE. destruct RE as (O & T & B2 & Aff & _ & Ch).
    subst o. rewrite Ch.
    split; [lia|]. split; [lia|]. split; [lia|]. split; [exact T|].
    split; [reflexivity|].
    destruct (compare_outcome_totals (r_player_cards round)
                (r_dealer_cards round) NB) as (W1 & W2 & W3 & W4 & W5).
    split; [intros A; rewrite (W1 A); cbn [settle]; split;
            [reflexivity | lia]|].
    split; [intros A; rewrite (W2 A); cbn [settle]; split;
            [reflexivity | lia]|].
    split; [intros A; rewrite (W3 A); cbn [settle]; split;
            [reflexivity | lia]|].
    split; [intros A; rewrite (W4 A); cbn [settle]; split;
            [reflexivity | lia]|].
    split; [|now rewrite <- Ch].
    destruct (compare_outcome (r_player_cards round) (r_dealer_cards round));
      cbn [settle]; try lia. congruence.
Qed.

Lemma doubled_round_settlement_witness :
  r_chips
    (mkRound (-50) 100 50 true
       [R5 of Spade; R6 of Spade; R7 of Club] [RK of Heart; R9 of Heart]
       (firstn 47
          (stacked [R5 of Spade; R6 of Spade; RK of Heart; R9 of Heart;
                    R7 of Club]))
       [] (ExitFinal dealer_win))
  = 100 - 3 * 50.
Proof.
  refine (proj2 (proj1 (proj2 (proj2 (proj2 (proj2 (proj2
    (doubled_round_settlement 100
       (stacked [R5 of Spade; R6 of Spade; RK of Heart; R9 of Heart;
                 R7 of Club])
       [LInt 50; LDouble] _ [] _ _ _)))))) _)).
  - vm_compute. reflexivity.
  - reflexivity.
  - vm_compute. discriminate.
  - vm_compute. split; [reflexivity | discriminate].
Defined.

(** ** The payout of a natural *)

(** Rounding at the first integers a binary64 cannot hold: to the
    nearest float, and to the even one of two equally near. *)
Lemma round53_examples :
  round53 (2 ^ 53 + 1) = 2 ^ 53
  /\ round53 (2 ^ 53 + 2) = 2 ^ 53 + 2
  /\ round53 (2 ^ 53 + 3) = 2 ^ 53 + 4
  /\ round53 (2 ^ 54 + 5) = 2 ^ 54 + 4
  /\ round53 (2 ^ 54 + 6) = 2 ^ 54 + 8
  /\ round53 (- (2 ^ 53 + 1)) = - 2 ^ 53
  /\ int_1_5_times 7 = Ret 10
  /\ int_1_5_times (2 ^ 1024) = Raise OverflowError.
Proof. repeat split; vm_compute; reflexivity. Qed.

Lemma round53_exact (n : Z) : 0 <= n < 2 ^ 53 -> round53 n = n.
Proof.
  intros [L U]. unfold round53.
  destruct (Z.eq_dec n 0) as [->|N]; [reflexivity|].
  rewrite Z.sgn_pos, Z.abs_eq by lia. unfold round53_pos.
  assert (Z.log2 n < 53) by (apply Z.log2_lt_pow2; lia).
  destruct (Z.ltb_spec (Z.log2 n) 53); lia.
Qed.

Lemma int_1_5_times_exact (bet : Z) :
  0 <= bet -> 3 * bet < 2 ^ 53 -> int_1_5_times bet = Ret (3 * bet / 2).
Proof.
  intros L U. unfold int_1_5_times.
  assert (P : 2 ^ 53 < 2 ^ 1024) by (apply Z.pow_lt_mono_r; lia).
  assert (Q : 2 ^ 1024 < 2 ^ 1025) by (apply Z.pow_lt_mono_r; lia).
  rewrite (round53_exact bet) by lia.
  rewrite (round53_exact (3 * bet)) by lia.
  rewrite !Z.abs_eq by lia.
  destruct (Z.leb_spec (2 ^ 1024) bet); [lia|].
  destruct (Z.leb_spec (2 ^ 1025) (3 * bet)); [lia|].
  now rewrite Z.quot_div_nonneg by lia.
Qed.

(** C8, as the claim states it, fails for large bets: the payout is the
    truncation of a binary64 product, not an exact integer.  With the
    bet [2^52 + 1] (on [2^53] chips) the product [1.5 * bet] falls
    half-way between two floats and is rounded up to the even one, so a
    natural pays one chip more than [floor(1.5 * bet)]. *)
Lemma natural_payout_rounded :
  let b := 2 ^ 52 + 1 in
  let chips := 2 ^ 53 in
  let cards := stacked [RA of Spade; RK of Spade; R9 of Heart; R7 of Heart] in
  1 <= b <= chips
  /\ Permutation fresh_cards cards
  /\ deal cards 4
     = Ret ([RA of Spade; RK of Spade; R9 of Heart; R7 of Heart],
            firstn 48 cards)
  /\ is_blackjack [RA of Spade; RK of Spade] = true
  /\ is_blackjack [R9 of Heart; R7 of Heart] = false
  /\ int_1_5_times b = Ret (3 * b / 2 + 1)
  /\ play_round chips cards [LInt b]
     = Ret (Some true, chips + b + (3 * b / 2 + 1), [])
  /\ play_round chips cards [LInt b]
     <> Ret (Some true, chips + b + 3 * b / 2, []).
Proof.
  cbv zeta. split; [split; vm_compute; discriminate|].
  split; [apply is_perm_sound; vm_compute; reflexivity|].
  repeat split; try (vm_compute; reflexivity).
  vm_compute. discriminate.
Qed.

(** C8, amended.  When the first two cards of the player are a natural
    and those of the dealer are not, and the bet [b] is small enough for
    [1.5 * b] to be an exact float ([3 * b < 2^53]), the payout is
    [floor(3 * b / 2)] and the round returns the chips increased by
    [b + floor(3 * b / 2)]. *)
Theorem natural_payout
    (chips : Z) (cards : list Card) (lines : list Line)
    (player dealer d1 deck : list Card) (b : Z) (lines' : list Line) :
  deal cards 2 = Ret (player, d1) ->
  deal d1 2 = Ret (dealer, deck) ->
  prompt_bet chips lines = Ret (Some b, lines') ->
  is_blackjack player = true ->
  is_blackjack dealer = false ->
  3 * b < 2 ^ 53 ->
  int_1_5_times b = Ret (3 * b / 2)
  /\ play_round_locals chips cards lines
     = Ret (Some (mkRound (chips + (b + 3 * b / 2)) b b false
                    player dealer deck lines' ExitNatural), lines')
  /\ play_round chips cards lines
     = Ret (Some true, chips + (b + 3 * b / 2), lines').
Proof.
  intros D1 D2 PB PN DN Small.
  pose proof (prompt_bet_ret _ _ _ _ PB) as [_ R].
  specialize (R b eq_refl).
  assert (PAY : int_1_5_times b = Ret (3 * b / 2))
    by (apply int_1_5_times_exact; lia).
  assert (L : play_round_locals chips cards lines
              = Ret (Some (mkRound (chips + (b + 3 * b / 2)) b b false
                             player dealer deck lines' ExitNatural), lines')).
  { unfold play_round_locals. rewrite D1. cbn [bind]. rewrite D2.
    cbn [bind]. rewrite PB. cbn [bind].
    unfold play_round_from_bet. rewrite PN, DN. cbn [orb andb negb].
    rewrite PAY. reflexivity. }
  split; [exact PAY|]. split; [exact L|].
  unfold play_round. rewrite L. reflexivity.
Qed.

Lemma natural_payout_witness :
  play_round 100
    (stacked [RA of Spade; RK of Spade; R9 of Heart; R7 of Heart]) [LInt 15]
  = Ret (Some true, 100 + (15 + 3 * 15 / 2), []).
Proof.
  refine (proj2 (proj2
    (natural_payout 100
       (stacked [RA of Spade; RK of Spade; R9 of Heart; R7 of Heart])
       [LInt 15] [RA of Spade; RK of Spade] [R9 of Heart; R7 of Heart]
       _ _ 15 [] _ _ _ _ _ _))).
  - vm_compute. reflexivity.
  - vm_compute. reflexivity.
  - reflexivity.
  - reflexivity.
  - reflexivity.
  - vm_compute. reflexivity.
Defined.

(** ** Rounds on chosen cards *)

(** What every exit does to the chips, from the chips [chips] at the
    start of the round and the bet [b] placed: the one law behind the
    three rounds below. *)
Lemma round_chips
    (chips : Z) (cards : list Card) (lines : list Line)
    (round : Round) (lines' : list Line) :
  play_round_locals chips cards lines = Ret (Some round, lines') ->
  let b := r_original_bet round in
  1 <= b <= chips
  /\ match r_exit round with
     | ExitNatural =>
         r_chips round = chips - b \/ r_chips round = chips
         \/ exists payout,
              int_1_5_times b = Ret payout /\ r_chips round = chips + (b + payout)
     | ExitHitBust => r_doubled round = false /\ r_chips round = chips - b
     | ExitDoubleBust => r_doubled round = true /\ r_chips round = chips - b
     | ExitFinal o =>
         if r_doubled round
         then r_chips round = settle o (chips - b) (2 * b)
         else r_chips round = settle o chips b
     end.
Proof.
  intros H. cbv zeta.
  apply play_round_locals_ret in H
    as (player & dealer & d1 & deck & bet & lines1 & D1 & D2 & PB & R & _).
  apply prompt_bet_ret in PB as [_ PB]. specialize (PB bet eq_refl).
  apply deal_ret in D1 as [_ LP].
  apply play_round_from_bet_ret in R
    as (dp & dd & OB & _ & _ & _ & _ & _ & _ & RE); [|exact LP].
  rewrite OB. split; [exact PB|].
  unfold round_ends in RE. destruct (r_exit round).
  - destruct RE as (_ & _ & _ & _ & [(_ & _ & payout & E1 & E2)|[E|E]]).
    + right. right. now exists payout.
    + left. tauto.
    + right. left. tauto.
  - tauto.
  - tauto.
  - destruct RE as (_ & _ & RE). destruct (r_doubled round).
    + destruct RE as (_ & _ & _ & ->). f_equal. lia.
    + tauto.
Qed.

(** A push in a round without doubling leaves the chips as they were. *)
Lemma push_without_double
    (chips : Z) (cards : list Card) (lines : list Line)
    (round : Round) (lines' : list Line) :
  play_round_locals chips cards lines = Ret (Some round, lines') ->
  r_exit round = ExitFinal push -> r_doubled round = false ->
  r_chips round = chips.
Proof.
  intros H E D. apply round_chips in H as [_ H].
  now rewrite E, D in H.
Qed.

(** Without doubling, no exit but a natural takes more than the bet,
    which [prompt_bet] keeps within the chips. *)
Lemma chips_kept_without_double
    (chips : Z) (cards : list Card) (lines : list Line)
    (round : Round) (lines' : list Line) :
  play_round_locals chips cards lines = Ret (Some round, lines') ->
  r_doubled round = false -> r_exit round <> ExitNatural ->
  0 <= r_chips round.
Proof.
  intros H D N. apply round_chips in H as [B H]. cbv zeta in B.
  rewrite D in H. destruct (r_exit round) as [| | |o].
  - congruence.
  - lia.
  - destruct H as [H _]. discriminate H.
  - rewrite H. destruct o; cbn [settle]; lia.
Qed.

(** C1 (the code departs from the claim).  With 100 chips the player
    bets 50 on a five and a six and doubles, as [chips - bet >= bet]
    allows; a seven makes 18 against the dealer's 19.  Doubling has
    taken 50 chips and the loss takes the doubled bet, 100, on top:
    [play_round] returns -50 chips, and [main] prints that balance. *)
Theorem chips_negative_after_doubled_loss :
  let cards :=
    stacked [R5 of Spade; R6 of Spade; RK of Heart; R9 of Heart; R7 of Club] in
  Permutation fresh_cards cards
  /\ play_round_locals 100 cards [LInt 50; LDouble]
     = Ret (Some (mkRound (-50) 100 50 true
                    [R5 of Spade; R6 of Spade; R7 of Club]
                    [RK of Heart; R9 of Heart]
                    (firstn 47 cards) [] (ExitFinal dealer_win)), [])
  /\ play_round 100 cards [LInt 50; LDouble] = Ret (Some true, -50, [])
  /\ main (fun _ => cards) [LInt 50; LDouble; LOther] = Ret [-50].
Proof.
  cbv zeta. split; [apply is_perm_sound; vm_compute; reflexivity|].
  repeat split; vm_compute; reflexivity.
Qed.

(** C2 (the code departs from the claim).  With 100 chips the player
    bets 10 on a king and a six and doubles: 10 chips are taken at
    once, the bet becomes 20, one card is drawn - a queen, which busts
    the hand - and the round returns without touching the chips again.
    The round started with 100 chips and ends with 90: the loss is the
    original bet, 10, not the doubled bet, 20. *)
Theorem double_bust_loses_single_bet :
  let cards :=
    stacked [RK of Spade; R6 of Spade; RK of Heart; R8 of Heart; RQ of Club] in
  Permutation fresh_cards cards
  /\ play_round_locals 100 cards [LInt 10; LDouble]
     = Ret (Some (mkRound 90 20 10 true
                    [RK of Spade; R6 of Spade; RQ of Club]
                    [RK of Heart; R8 of Heart]
                    (firstn 47 cards) [] ExitDoubleBust), [])
  /\ play_round 100 cards [LInt 10; LDouble] = Ret (Some true, 90, [])
  /\ 100 - 90 <> 2 * 10.
Proof.
  cbv zeta. split; [apply is_perm_sound; vm_compute; reflexivity|].
  repeat split; try (vm_compute; reflexivity). discriminate.
Qed.

(** C5 (the code departs from the claim).  With 100 chips the player
    bets 10 on a five and a six and doubles; a seven makes 18, and the
    dealer stands on 18 too.  The round is a push, yet it returns 90
    chips: the 10 chips taken when doubling are not given back. *)
Theorem push_after_double_costs_bet :
  let cards :=
    stacked [R5 of Spade; R6 of Spade; RK of Heart; R8 of Heart; R7 of Club] in
  Permutation fresh_cards cards
  /\ fst (hand_value [R5 of Spade; R6 of Spade; R7 of Club]) = 18
  /\ fst (hand_value [RK of Heart; R8 of Heart]) = 18
  /\ play_round_locals 100 cards [LInt 10; LDouble]
     = Ret (Some (mkRound 90 20 10 true
                    [R5 of Spade; R6 of Spade; R7 of Club]
                    [RK of Heart; R8 of Heart]
                    (firstn 47 cards) [] (ExitFinal push)), [])
  /\ play_round 100 cards [LInt 10; LDouble] = Ret (Some true, 90, [])
  /\ 90 <> 100.
Proof.
  cbv zeta. split; [apply is_perm_sound; vm_compute; reflexivity|].
  repeat split; try (vm_compute; reflexivity). discriminate.
Qed.

(** ** The iterations allowed to the loops are enough *)

Lemma player_loop_fuel (fuel : nat) :
  forall chips bet original_bet player_cards dealer_cards deck lines,
    (length lines < fuel)%nat ->
    player_loop fuel chips bet original_bet
      player_cards dealer_cards deck lines <> OutOfFuel
    /\ player_loop fuel chips bet original_bet
         player_cards dealer_cards deck lines <> Diverges.
Proof.
  induction fuel as [|fuel IH];
    intros chips bet ob pc dc deck lines F; [lia|].
  rewrite player_loop_step.
  destruct (prompt_action_fails (bet <=? chips - bet) lines)
    as [(action & lines' & PA)|PA]; rewrite PA; [|split; discriminate].
  apply prompt_action_ret in PA as [PL _]. cbn [bind].
  destruct action; rewrite ?deal_one.
  - destruct (pop deck) as [[c rest]|]; cbn [bind]; [|split; discriminate].
    destruct (21 <? _); [split; discriminate|]. apply IH. lia.
  - split; discriminate.
  - destruct (pop deck) as [[c rest]|]; cbn [bind]; [|split; discriminate].
    destruct (21 <? _); split; discriminate.
Qed.

Lemma play_round_from_bet_fuel
    (chips bet : Z) (player dealer deck : list Card) (lines : list Line) :
  play_round_from_bet chips bet player dealer deck lines <> OutOfFuel.
Proof.
  unfold play_round_from_bet.
  destruct (is_blackjack player), (is_blackjack dealer);
    cbn [orb andb negb]; try discriminate.
  - destruct (int_1_5_times_fails bet) as [(payout & ->)| ->]; discriminate.
  - destruct (player_loop_fuel (S (length lines)) chips bet bet
                player dealer deck lines) as [F _]; [lia|].
    destruct (player_loop _ _ _ _ _ _ _ _) as [[r|s]| | |];
      cbn [bind]; try discriminate; [|congruence].
    pose proof (dealer_play_fuel (s_deck s) dealer) as D.
    destruct (dealer_play (s_deck s) dealer) as [[deck' dealer']| | |];
      cbn [bind]; try discriminate. congruence.
Qed.

(** [play_round] never uses up its iterations, and a round that returns
    has read at least one line. *)
Lemma play_round_fuel (chips : Z) (cards : list Card) (lines : list Line) :
  play_round chips cards lines <> OutOfFuel
  /\ forall cont chips' lines',
       play_round chips cards lines = Ret (cont, chips', lines') ->
       (length lines' < length lines)%nat.
Proof.
  unfold play_round, play_round_locals.
  destruct (deal_total 2 cards) as [_ T1].
  destruct (deal cards 2) as [[player d1]| | |] eqn:D1; cbn [bind];
    try (split; [congruence | discriminate]).
  destruct (deal_total 2 d1) as [_ T2].
  destruct (deal d1 2) as [[dealer deck]| | |] eqn:D2; cbn [bind];
    try (split; [congruence | discriminate]).
  destruct (prompt_bet_fails chips lines) as [(bet & lines1 & PB)|PB];
    rewrite PB; cbn [bind]; [|split; discriminate].
  apply prompt_bet_ret in PB as [PL _].
  destruct bet as [bet|].
  - pose proof (play_round_from_bet_fuel chips bet player dealer deck lines1)
      as F.
    destruct (play_round_from_bet chips bet player dealer deck lines1)
      as [round| | |] eqn:R; cbn [bind];
      try (split; [congruence | discriminate]).
    split; [discriminate|]. intros cont chips' lines' [= _ _ <-].
    apply deal_ret in D1 as [_ LP].
    apply play_round_from_bet_ret in R
      as (dp & dd & _ & _ & _ & _ & _ & _ & LI & _); [lia | exact LP].
  - split; [discriminate|]. intros cont chips' lines' [= _ _ <-]. exact PL.
Qed.

Lemma main_loop_fuel (fuel : nat) :
  forall chips shuffles n lines,
    (length lines < fuel)%nat ->
    main_loop fuel chips shuffles n lines <> OutOfFuel.
Proof.
  induction fuel as [|fuel IH]; intros chips shuffles n lines F; [lia|].
  cbn [main_loop]. destruct (chips <=? 0); [discriminate|].
  destruct (play_round_fuel chips (shuffles n) lines) as [NF L].
  destruct (play_round chips (shuffles n) lines)
    as [[[cont chips'] lines']| | |]; cbn [bind]; try discriminate;
    [|congruence].
  specialize (L _ _ _ eq_refl).
  destruct cont; [|discriminate].
  destruct lines' as [|cmd lines']; [discriminate|].
  cbn [length] in L.
  specialize (IH chips' shuffles (S n) lines').
  destruct cmd; try discriminate;
    (destruct (main_loop fuel chips' shuffles (S n) lines');
     cbn [bind]; try discriminate; apply IH; lia).
Qed.

Lemma main_fuel (shuffles : nat -> list Card) (lines : list Line) :
  main shuffles lines <> OutOfFuel.
Proof.
  apply main_loop_fuel. lia.
Qed.

(** * Further properties of the program *)

(** ** The hand evaluator *)

Lemma hand_value_total (cards : list Card) :
  fst (hand_value cards)
  = (if any_ace cards && (sum_card_values_as_ace_one cards + 10 <=? 21)
     then sum_card_values_as_ace_one cards + 10
     else sum_card_values_as_ace_one cards).
Proof.
  destruct (hand_value_shape cards) as (T & L & B & D).
  pose proof (aces_at_11_le_1 cards) as K.
  pose proof (any_ace_num_aces cards) as A.
  destruct (any_ace cards) eqn:E; cbn [andb].
  - assert (N : (0 < num_aces cards)%nat) by now apply A.
    destruct (Z.leb_spec (sum_card_values_as_ace_one cards + 10) 21); lia.
  - assert (N : ~ (0 < num_aces cards)%nat)
      by (intros N; apply A in N; discriminate).
    lia.
Qed.

(** X1.  [hand_value] in closed form: the total is the sum with every
    Ace as 1, plus 10 exactly when the hand holds an Ace and those 10
    do not take it beyond 21. *)
Theorem hand_value_closed_form (cards : list Card) :
  fst (hand_value cards)
  = (if any_ace cards && (sum_card_values_as_ace_one cards + 10 <=? 21)
     then sum_card_values_as_ace_one cards + 10
     else sum_card_values_as_ace_one cards).
Proof. apply hand_value_total. Qed.

Lemma sum_ace_one_perm (a b : list Card) :
  Permutation a b ->
  sum_card_values_as_ace_one a = sum_card_values_as_ace_one b.
Proof.
  induction 1 as [|x l l' _ IH|x y l|l l' l'' _ IH1 _ IH2].
  - reflexivity.
  - rewrite !(sum_ace_one_cons x). lia.
  - rewrite !sum_ace_one_cons. lia.
  - congruence.
Qed.

Lemma any_ace_perm (a b : list Card) :
  Permutation a b -> any_ace a = any_ace b.
Proof.
  unfold any_ace.
  induction 1 as [|x l l' _ IH|x y l|l l' l'' _ IH1 _ IH2]; cbn [existsb].
  - reflexivity.
  - now rewrite IH.
  - now destruct (is_ace x), (is_ace y).
  - congruence.
Qed.

(** X2.  The order of the cards does not matter to [hand_value]: two
    hands that are permutations of each other get the same total and
    the same flag. *)
Theorem hand_value_order (a b : list Card) :
  Permutation a b -> hand_value a = hand_value b.
Proof.
  intros P. apply injective_projections.
  - rewrite !hand_value_total.
    now rewrite (sum_ace_one_perm a b P), (any_ace_perm a b P).
  - rewrite !hand_value_flag, !hand_value_total.
    now rewrite (sum_ace_one_perm a b P), (any_ace_perm a b P).
Qed.

Lemma hand_value_order_witness :
  hand_value [RA of Spade; R6 of Heart; RK of Club]
  = hand_value [RK of Club; RA of Spade; R6 of Heart].
Proof.
  apply hand_value_order.
  apply is_perm_sound. reflexivity.
Defined.

(** X3.  The docstring of [hand_value]: the total is the highest value
    of the hand that does not exceed 21, if there is one, and the
    lowest value of the hand otherwise - the values of a hand being the
    sums with [k] of its Aces counted as 11 and the others as 1. *)
Theorem hand_value_best (cards : list Card) :
  let s := sum_card_values_as_ace_one cards in
  let v := fst (hand_value cards) in
  (exists k, (k <= num_aces cards)%nat /\ v = s + 10 * Z.of_nat k)
  /\ (forall k, (k <= num_aces cards)%nat ->
        s + 10 * Z.of_nat k <= 21 -> s + 10 * Z.of_nat k <= v)
  /\ (s <= 21 <-> v <= 21)
  /\ (21 < s -> v = s).
Proof.
  cbv zeta.
  destruct (hand_value_shape cards) as (T & L & B & D).
  pose proof (num_aces_le_sum cards) as S.
  split; [exists (aces_at_11 cards); split; [exact L | exact T]|].
  split; [|split; lia].
  intros k Hk Hv.
  assert (k <= 1)%nat by lia.
  destruct (Nat.eq_dec k 0) as [->|Nk]; [lia|].
  assert (k = 1%nat) by lia. subst k.
  destruct (Nat.eq_dec (aces_at_11 cards) 0) as [Z0|NZ]; [|lia].
  assert (11 < fst (hand_value cards)) by (apply D; lia).
  rewrite Z0 in T. lia.
Qed.

Lemma hand_value_best_witness :
  sum_card_values_as_ace_one [RA of Spade; R6 of Heart] + 10 * Z.of_nat 1
  <= fst (hand_value [RA of Spade; R6 of Heart]).
Proof.
  destruct (hand_value_best [RA of Spade; R6 of Heart]) as (_ & H & _).
  apply (H 1%nat).
  - vm_compute. apply le_n.
  - vm_compute. discriminate.
Defined.

(** X4.  [is_blackjack] holds exactly of an Ace with a ten-valued card
    (T, J, Q or K), in either order. *)
Theorem is_blackjack_iff (cards : list Card) :
  is_blackjack cards = true
  <-> exists a t,
        is_ace a = true /\ in_TJQK t = true
        /\ (cards = [a; t] \/ cards = [t; a]).
Proof.
  split.
  - destruct cards as [|c1 [|c2 [|c3 rest]]]; try discriminate.
    intros H.
    assert (E : is_ace c1 && in_TJQK c2 || in_TJQK c1 && is_ace c2 = true).
    { destruct c1 as [[] s1], c2 as [[] s2]; cbv in H |- *; congruence. }
    apply orb_true_iff in E as [E|E]; apply andb_true_iff in E as [E1 E2].
    + exists c1, c2. auto.
    + exists c2, c1. auto.
  - intros (a & t & A & T & [-> | ->]);
      destruct a as [ra sa], t as [rt st];
      destruct ra; try discriminate A; destruct rt; try discriminate T;
      reflexivity.
Qed.

(** X5.  A bust is for good: once the total of a hand exceeds 21, no
    card added to it brings the total back to 21 or less. *)
Theorem bust_is_final (cards more : list Card) :
  21 < fst (hand_value cards) -> 21 < fst (hand_value (cards ++ more)).
Proof.
  intros B.
  assert (S : 21 < sum_card_values_as_ace_one cards).
  { rewrite hand_value_total in B.
    destruct (any_ace cards && _) eqn:E; [|exact B].
    apply andb_true_iff in E as [_ E]. apply Z.leb_le in E. lia. }
  pose proof (hand_value_ge_sum (cards ++ more)) as G.
  rewrite sum_ace_one_app in G.
  pose proof (sum_ace_one_length more). lia.
Qed.

Lemma bust_is_final_witness :
  21 < fst (hand_value ([RK of Spade; R6 of Heart; RQ of Club]
                        ++ [RA of Spade])).
Proof.
  apply bust_is_final. vm_compute. reflexivity.
Defined.

(** A card raises the total by 10 at most, unless the total stays
    within 21. *)
Lemma hand_value_hit_bound (cards : list Card) (c : Card) :
  fst (hand_value (cards ++ [c])) <= Z.max 21 (fst (hand_value cards) + 10).
Proof.
  rewrite (hand_value_total (cards ++ [c])).
  rewrite sum_ace_one_app, sum_ace_one_single.
  pose proof (low_value_pos c). pose proof (hand_value_ge_sum cards).
  destruct (any_ace (cards ++ [c]) && _) eqn:E.
  - apply andb_true_iff in E as [_ E]. apply Z.leb_le in E. lia.
  - lia.
Qed.

Lemma dealer_loop_bound (fuel : nat) : forall deck hand deck' hand',
  dealer_loop fuel deck hand = Ret (deck', hand') ->
  fst (hand_value hand) <= 26 -> fst (hand_value hand') <= 26.
Proof.
  induction fuel as [|fuel IH]; intros deck hand deck' hand' H B;
    [discriminate|].
  destruct (Z.ltb_spec (fst (hand_value hand)) 17) as [L|L].
  - destruct (deck_cases deck) as [->|(rest & c & ->)].
    + rewrite dealer_loop_draw_empty in H by exact L. discriminate.
    + rewrite dealer_loop_draw_card in H by exact L.
      apply IH in H; [exact H|].
      pose proof (hand_value_hit_bound hand c). lia.
  - rewrite dealer_loop_stop in H by exact L. now injection H as <- <-.
Qed.

(** X6.  The dealer ends between 17 and 26: a hand that does not exceed
    26 when [dealer_play] starts - any hand of two cards, and any hand
    that is not bust - is returned with a total from 17 to 26. *)
Theorem dealer_final_total (deck hand deck' hand' : list Card) :
  dealer_play deck hand = Ret (deck', hand') ->
  fst (hand_value hand) <= 26 ->
  17 <= fst (hand_value hand') <= 26.
Proof.
  intros H B. split.
  - apply dealer_loop_ret in H as (drawn & _ & _ & T & _). exact T.
  - now apply (dealer_loop_bound _ _ _ _ _ H).
Qed.

Lemma dealer_final_total_witness :
  17 <= fst (hand_value [RA of Spade; R5 of Heart; R6 of Club; RK of Spade])
  <= 26.
Proof.
  apply (dealer_final_total [RK of Spade; R6 of Club]
           [RA of Spade; R5 of Heart] []).
  - reflexivity.
  - vm_compute. discriminate.
Defined.

(** ** The deck *)

(** X7.  [Deck.deal(n)] in closed form: on a deck of [n] cards or more
    it returns the last [n] cards, the last one first, and leaves the
    others in place; on a shorter deck it raises [IndexError]. *)
Theorem deal_spec (cards : list Card) (n : nat) :
  ((n <= length cards)%nat ->
   deal cards n
   = Ret (rev (skipn (length cards - n) cards),
          firstn (length cards - n) cards))
  /\ ((length cards < n)%nat -> deal cards n = Raise IndexError).
Proof.
  split; intros L.
  - destruct (deal_enough n cards L) as (cs & rest & E). rewrite E.
    apply deal_ret in E as [-> <-].
    rewrite length_app, length_rev.
    replace (length rest + length cs - length cs)%nat
      with (length rest + 0)%nat by lia.
    rewrite skipn_app, firstn_app_2, skipn_all2 by lia.
    cbn [firstn skipn app]. replace (length rest + 0 - length rest)%nat
      with O by lia.
    cbn [skipn]. now rewrite rev_involutive, app_nil_r.
  - destruct (deal_total n cards) as [D F].
    destruct (deal cards n) as [[cs rest]|e| |] eqn:E; try congruence.
    + apply deal_ret in E as [-> <-].
      rewrite length_app, length_rev in L. lia.
    + apply deal_raises in E as [-> _]. reflexivity.
Qed.

Lemma deal_spec_witness :
  deal [R2 of Spade; R3 of Spade; R4 of Spade] 2
  = Ret ([R4 of Spade; R3 of Spade], [R2 of Spade])
  /\ deal [R2 of Spade] 2 = Raise IndexError.
Proof.
  split.
  - apply (proj1 (deal_spec [R2 of Spade; R3 of Spade; R4 of Spade] 2)).
    cbn [length]. lia.
  - apply (proj2 (deal_spec [R2 of Spade] 2)). cbn [length]. lia.
Defined.

(** X8.  Dealing [n] cards and then [m] is dealing [n + m] cards at
    once: the same cards in the same order, the same deck left, and
    the same failure on a deck too short. *)
Theorem deal_add (n m : nat) (cards : list Card) :
  deal cards (n + m)
  = ('(a, d) <- deal cards n ;;
     '(b, d') <- deal d m ;;
     Ret (a ++ b, d')).
Proof.
  revert cards. induction n as [|n IH]; intros cards.
  - cbn [Nat.add deal bind app].
    now destruct (deal cards m) as [[b d']| | |].
  - cbn [Nat.add deal].
    destruct (pop cards) as [[c rest]|]; [|reflexivity].
    rewrite IH.
    destruct (deal rest n) as [[a d]| | |]; cbn [bind]; try reflexivity.
    now destruct (deal d m) as [[b d']| | |].
Qed.

(** ** The prompts *)

(** X9.  [prompt_bet] returns on the first line that is a quit word or
    an integer from 1 to [chips]: it answers [None] to the former and
    the integer to the latter, and leaves the lines after it unread.
    When no line is of that kind it never returns. *)
Theorem prompt_bet_spec (chips : Z) (lines : list Line) :
  (forall r rest,
     prompt_bet chips lines = Ret (r, rest)
     <-> exists skipped l,
           lines = skipped ++ l :: rest
           /\ Forall (bet_rejected chips) skipped
           /\ ((r = None /\ (l = LQ \/ l = LQuit))
               \/ exists bet, r = Some bet /\ l = LInt bet
                              /\ 1 <= bet <= chips))
  /\ (prompt_bet chips lines = Diverges
      <-> Forall (bet_rejected chips) lines).
Proof.
  induction lines as [|l lines [IH1 IH2]].
  - split.
    + intros r rest. split; [discriminate|].
      intros (skipped & l & E & _). now destruct skipped.
    + split; [constructor | reflexivity].
  - assert (K : forall b, (1 <=? b) && (b <=? chips) = true <-> 1 <= b <= chips).
    { intros b. rewrite andb_true_iff, !Z.leb_le. tauto. }
    assert (Rej : bet_rejected chips l ->
                  prompt_bet chips (l :: lines) = prompt_bet chips lines).
    { destruct l; cbn [bet_rejected prompt_bet]; try tauto.
      intros N. destruct ((1 <=? z) && (z <=? chips)) eqn:E;
        [apply K in E; tauto | reflexivity]. }
    assert (Acc : ~ bet_rejected chips l ->
                  exists r, prompt_bet chips (l :: lines) = Ret (r, lines)
                  /\ ((r = None /\ (l = LQ \/ l = LQuit))
                      \/ exists bet, r = Some bet /\ l = LInt bet
                                     /\ 1 <= bet <= chips)).
    { destruct l; cbn [bet_rejected prompt_bet]; try tauto;
        try (intros _; exists None; split; [reflexivity|]; left; tauto).
      intros N. destruct ((1 <=? z) && (z <=? chips)) eqn:E.
      - apply K in E. exists (Some z). split; [reflexivity|].
        right. now exists z.
      - exfalso. apply N. intros B. apply K in B. congruence. }
    assert (Dec : bet_rejected chips l \/ ~ bet_rejected chips l).
    { destruct l; cbn [bet_rejected]; try tauto.
      destruct (Z.leb_spec 1 z), (Z.leb_spec z chips);
        [right|left|left|left]; lia. }
    split.
    + intros r rest. destruct Dec as [R|A].
      * rewrite (Rej R), IH1. split.
        -- intros (skipped & l0 & -> & F & H).
           exists (l :: skipped), l0. split; [reflexivity|].
           split; [now constructor | exact H].
        -- intros (skipped & l0 & E & F & H).
           destruct skipped as [|s skipped]; cbn [app] in E.
           ++ injection E as -> ->. exfalso.
              destruct H as [[_ [-> | ->]]|(bet & _ & -> & B)];
                cbn [bet_rejected] in R; tauto.
           ++ injection E as -> ->. inversion F; subst.
              now exists skipped, l0.
      * destruct (Acc A) as (r0 & E0 & H0). rewrite E0. split.
        -- intros [= <- <-]. exists [], l. repeat split; auto.
        -- intros (skipped & l0 & E & F & H).
           destruct skipped as [|s skipped]; cbn [app] in E.
           ++ injection E as <- <-.
              destruct H0 as [[-> H0]|(b0 & -> & E1 & _)],
                       H as [[-> H]|(b1 & -> & E2 & _)];
                try reflexivity; try (destruct H0; congruence);
                try (destruct H; congruence). congruence.
           ++ injection E as -> ->. inversion F; subst. tauto.
    + destruct Dec as [R|A].
      * rewrite (Rej R), IH2. split; [now constructor|].
        intros F. now inversion F.
      * destruct (Acc A) as (r0 & E0 & _). rewrite E0.
        split; [discriminate|]. intros F. inversion F; subst. tauto.
Qed.

Lemma prompt_action_cons (can_double : bool) (l : Line) (lines : list Line) :
  prompt_action can_double (l :: lines)
  = match action_of can_double l with
    | Some a => Ret (a, lines)
    | None => prompt_action can_double lines
    end.
Proof.
  destruct l; cbn [prompt_action action_of]; try reflexivity.
  now destruct can_double.
Qed.

(** X10.  [prompt_action] returns the action of the first line that
    holds one - hit, stand, or double when double is offered - and
    leaves the lines after it unread; a request to double that is not
    offered is read past like any other invalid line.  With no such
    line the prompt ends in [EOFError]. *)
Theorem prompt_action_spec (can_double : bool) (lines : list Line) :
  (forall a rest,
     prompt_action can_double lines = Ret (a, rest)
     <-> exists skipped l,
           lines = skipped ++ l :: rest
           /\ Forall (fun x => action_of can_double x = None) skipped
           /\ action_of can_double l = Some a)
  /\ (prompt_action can_double lines = Raise EOFError
      <-> Forall (fun x => action_of can_double x = None) lines)
  /\ (can_double = false ->
      forall rest, prompt_action can_double lines <> Ret (double, rest)).
Proof.
  assert (Main :
    (forall a rest,
       prompt_action can_double lines = Ret (a, rest)
       <-> exists skipped l,
             lines = skipped ++ l :: rest
             /\ Forall (fun x => action_of can_double x = None) skipped
             /\ action_of can_double l = Some a)
    /\ (prompt_action can_double lines = Raise EOFError
        <-> Forall (fun x => action_of can_double x = None) lines)).
  { induction lines as [|l lines [IH1 IH2]].
    - split.
      + intros a rest. split; [discriminate|].
        intros (skipped & l & E & _). now destruct skipped.
      + split; [constructor | reflexivity].
    - rewrite prompt_action_cons.
      destruct (action_of can_double l) as [a0|] eqn:A; split.
      + intros a rest. split.
        * intros [= <- <-]. now exists [], l.
        * intros (skipped & l0 & E & F & H).
          destruct skipped as [|s skipped]; cbn [app] in E;
            injection E as -> ->.
          -- congruence.
          -- inversion F; subst. congruence.
      + split; [discriminate|]. intros F. inversion F; subst. congruence.
      + intros a rest. rewrite IH1. split.
        * intros (skipped & l0 & -> & F & H).
          exists (l :: skipped), l0. split; [reflexivity|].
          split; [now constructor | exact H].
        * intros (skipped & l0 & E & F & H).
          destruct skipped as [|s skipped]; cbn [app] in E;
            injection E as -> ->.
          -- congruence.
          -- inversion F; subst. now exists skipped, l0.
      + rewrite IH2. split; [now constructor|].
        intros F. now inversion F. }
  destruct Main as [M1 M2]. split; [exact M1|]. split; [exact M2|].
  intros -> rest H. apply M1 in H as (skipped & l & _ & _ & H).
  destruct l; discriminate H.
Qed.

(** ** Outcomes *)

(** X11.  When neither hand is bust [compare_outcome] is even-handed:
    with the two hands exchanged a win becomes a loss, a loss a win,
    and a push stays a push.  When both hands are bust it is not: the
    outcome is [player_bust], whichever way round the hands are. *)
Theorem compare_outcome_swap (a b : list Card) :
  (fst (hand_value a) <= 21 -> fst (hand_value b) <= 21 ->
   compare_outcome b a = swap_outcome (compare_outcome a b))
  /\ (21 < fst (hand_value a) -> 21 < fst (hand_value b) ->
      compare_outcome a b = player_bust
      /\ compare_outcome b a = player_bust).
Proof.
  unfold compare_outcome.
  split; intros A B;
    destruct (Z.ltb_spec 21 (fst (hand_value a))),
             (Z.ltb_spec 21 (fst (hand_value b))); try lia;
    try (split; reflexivity).
  destruct (Z.ltb_spec (fst (hand_value b)) (fst (hand_value a))),
           (Z.ltb_spec (fst (hand_value a)) (fst (hand_value b)));
    try lia; reflexivity.
Qed.

Lemma compare_outcome_swap_witness :
  compare_outcome [RK of Spade; R9 of Heart] [RK of Heart; R8 of Club]
  = swap_outcome
      (compare_outcome [RK of Heart; R8 of Club] [RK of Spade; R9 of Heart]).
Proof.
  apply (proj1 (compare_outcome_swap [RK of Heart; R8 of Club]
                  [RK of Spade; R9 of Heart]));
    vm_compute; discriminate.
Defined.

(** X12.  A player who stands on less than 17 cannot beat the dealer's
    hand: once [dealer_play] has returned, the outcome is a win of the
    dealer, unless the dealer is bust. *)
Theorem stand_below_17 (deck dealer deck' dealer' player : list Card) :
  dealer_play deck dealer = Ret (deck', dealer') ->
  fst (hand_value player) < 17 ->
  compare_outcome player dealer'
  = (if 21 <? fst (hand_value dealer') then dealer_bust else dealer_win).
Proof.
  intros H P.
  apply dealer_loop_ret in H as (drawn & _ & _ & T & _).
  unfold compare_outcome.
  destruct (Z.ltb_spec 21 (fst (hand_value player))); [lia|].
  destruct (Z.ltb_spec 21 (fst (hand_value dealer'))); [reflexivity|].
  destruct (Z.ltb_spec (fst (hand_value dealer')) (fst (hand_value player)));
    [lia|].
  destruct (Z.ltb_spec (fst (hand_value player)) (fst (hand_value dealer')));
    [reflexivity | lia].
Qed.

Lemma stand_below_17_witness :
  compare_outcome [RK of Club; R6 of Club]
    [RK of Spade; R5 of Heart; R2 of Club]
  = dealer_win.
Proof.
  apply (stand_below_17 [R2 of Club] [RK of Spade; R5 of Heart] []
           [RK of Spade; R5 of Heart; R2 of Club] [RK of Club; R6 of Club]).
  - reflexivity.
  - vm_compute. reflexivity.
Defined.

(** ** The cards of a round *)

Lemma card_eqb_refl (c : Card) : card_eqb c c = true.
Proof. now destruct c as [[] []]. Qed.

Lemma nodupb_sound (l : list Card) : nodupb l = true -> NoDup l.
Proof.
  induction l as [|c l IH]; cbn [nodupb]; intros H; constructor.
  - apply andb_true_iff in H as [H _]. apply negb_true_iff in H.
    intros I. assert (E : existsb (card_eqb c) l = true).
    { apply existsb_exists. exists c. split; [exact I|].
      apply card_eqb_refl. }
    congruence.
  - apply IH. now apply andb_true_iff in H as [_ H].
Qed.

(** [Deck.__init__] builds each of the 52 cards once. *)
Lemma fresh_cards_nodup : NoDup fresh_cards.
Proof. apply nodupb_sound. vm_compute. reflexivity. Qed.

(** X13.  No card is lost or made in a round: when [play_round]
    returns, the deck left, the player's hand and the dealer's hand
    together are a permutation of the deck the round started with.  On
    a shuffle of the 52 cards the two hands therefore never hold the
    same card twice. *)
Theorem round_keeps_cards
    (chips : Z) (cards : list Card) (lines : list Line)
    (round : Round) (lines' : list Line) :
  play_round_locals chips cards lines = Ret (Some round, lines') ->
  Permutation cards
    (r_deck round ++ r_player_cards round ++ r_dealer_cards round)
  /\ (Permutation fresh_cards cards ->
      NoDup (r_player_cards round ++ r_dealer_cards round)).
Proof.
  intros H.
  apply play_round_locals_ret in H
    as (player & dealer & d1 & deck & bet & lines1 & D1 & D2 & _ & R & _).
  apply deal_ret in D1 as [E1 LP]. apply deal_ret in D2 as [E2 _].
  apply play_round_from_bet_ret in R
    as (dp & dd & _ & RP & RD & DK & _); [|exact LP].
  assert (P : Permutation cards
                (r_deck round ++ r_player_cards round ++ r_dealer_cards round)).
  { subst cards d1. rewrite DK, RP, RD.
    rewrite <- !app_assoc.
    apply Permutation_app_head.
    rewrite <- (Permutation_rev dd), <- (Permutation_rev dp),
            <- (Permutation_rev dealer), <- (Permutation_rev player).
    transitivity ((dp ++ dealer ++ player) ++ dd);
      [apply Permutation_app_comm|].
    transitivity ((player ++ dp ++ dealer) ++ dd);
      [|now rewrite <- !app_assoc].
    apply Permutation_app_tail.
    rewrite (app_assoc dp dealer player), (app_assoc player dp dealer).
    transitivity (player ++ dp ++ dealer);
      [apply Permutation_app_comm | now rewrite app_assoc]. }
  split; [exact P|].
  intros F.
  assert (N : NoDup (r_deck round ++ r_player_cards round
                       ++ r_dealer_cards round)).
  { eapply Permutation_NoDup; [|exact fresh_cards_nodup].
    now rewrite F. }
  now apply NoDup_app_remove_l in N.
Qed.

Lemma round_keeps_cards_witness :
  NoDup ([R5 of Spade; R6 of Spade; R7 of Club] ++ [RK of Heart; R9 of Heart]).
Proof.
  refine (proj2 (round_keeps_cards 100
    (stacked [R5 of Spade; R6 of Spade; RK of Heart; R9 of Heart; R7 of Club])
    [LInt 50; LDouble]
    (mkRound (-50) 100 50 true
       [R5 of Spade; R6 of Spade; R7 of Club] [RK of Heart; R9 of Heart]
       (firstn 47
          (stacked [R5 of Spade; R6 of Spade; RK of Heart; R9 of Heart;
                    R7 of Club]))
       [] (ExitFinal dealer_win)) [] _) _).
  - vm_compute. reflexivity.
  - apply is_perm_sound. vm_compute. reflexivity.
Defined.

(** ** The session *)

Lemma main_loop_printed (fuel : nat) :
  forall chips shuffles n lines printed,
    main_loop fuel chips shuffles n lines = Ret printed ->
    (printed <> [] -> 0 < chips)
    /\ forall front c, printed = front ++ [c] -> Forall (fun x => 0 < x) front.
Proof.
  induction fuel as [|fuel IH]; intros chips shuffles n lines printed H;
    [discriminate|].
  cbn [main_loop] in H.
  destruct (Z.leb_spec chips 0) as [L|L].
  { injection H as <-. split; [congruence|].
    intros front c E. now destruct front. }
  split; [lia|].
  destruct (play_round chips (shuffles n) lines)
    as [[[cont chips'] lines']| | |]; cbn [bind] in H; try discriminate.
  destruct cont; [|injection H as <-; intros front c E; now destruct front].
  destruct lines' as [|cmd lines']; [discriminate|].
  assert (Q : forall front c, [chips'] = front ++ [c] ->
                              Forall (fun x => 0 < x) front).
  { intros front c E. destruct front as [|f [|g front]];
      [constructor | discriminate | discriminate]. }
  destruct cmd; try (injection H as <-; exact Q);
    (destruct (main_loop fuel chips' shuffles (S n) lines') as [rec| | |] eqn:R;
     cbn [bind] in H; try discriminate; injection H as <-;
     apply IH in R as [P F]; intros front c E;
     destruct front as [|f front]; [constructor|];
     cbn [app] in E; injection E as <- E;
     constructor;
     [apply P; rewrite E; now destruct front | now apply (F front c)]).
Qed.

Lemma main_loop_with_play_round (fuel : nat) :
  forall chips shuffles n lines,
    main_loop_with play_round fuel chips shuffles n lines
    = main_loop fuel chips shuffles n lines.
Proof.
  induction fuel as [|fuel IH]; intros chips shuffles n lines;
    [reflexivity|].
  cbn [main_loop_with main_loop].
  destruct (chips <=? 0); [reflexivity|].
  destruct (play_round chips (shuffles n) lines)
    as [[[cont chips'] lines']| | |]; cbn [bind]; try reflexivity.
  destruct cont; [|reflexivity].
  destruct lines' as [|cmd lines']; [reflexivity|].
  destruct cmd; try reflexivity; now rewrite IH.
Qed.

Lemma main_loop_with_ext
    (round round' : Z -> list Card -> list Line
                    -> result (option bool * Z * list Line))
    (fuel : nat) :
  (forall chips cards lines,
     0 < chips -> round' chips cards lines = round chips cards lines) ->
  forall chips shuffles n lines,
    main_loop_with round' fuel chips shuffles n lines
    = main_loop_with round fuel chips shuffles n lines.
Proof.
  intros E. induction fuel as [|fuel IH]; intros chips shuffles n lines;
    [reflexivity|].
  cbn [main_loop_with].
  destruct (Z.leb_spec chips 0) as [L|L]; [reflexivity|].
  rewrite (E chips (shuffles n) lines L).
  destruct (round chips (shuffles n) lines)
    as [[[cont chips'] lines']| | |]; cbn [bind]; try reflexivity.
  destruct cont; [|reflexivity].
  destruct lines' as [|cmd lines']; [reflexivity|].
  destruct cmd; try reflexivity; now rewrite IH.
Qed.

(** X14.  [main] never calls [play_round] on an empty balance.  The
    loop of [main] is [main_loop_with] at [play_round]; and with
    [play_round] replaced by any function that agrees with it whenever
    the chips are positive - whatever that function does on zero chips
    or less - the session is the same, result for result.  So no
    session depends on what a round would do without chips: the loop
    stops before it starts one. *)
Theorem main_plays_on_chips
    (round' : Z -> list Card -> list Line
              -> result (option bool * Z * list Line))
    (shuffles : nat -> list Card) (lines : list Line) :
  (forall chips cards ls,
     0 < chips -> round' chips cards ls = play_round chips cards ls) ->
  main_loop_with play_round (S (length lines)) 100 shuffles 0%nat lines
  = main shuffles lines
  /\ main_loop_with round' (S (length lines)) 100 shuffles 0%nat lines
     = main shuffles lines.
Proof.
  intros E. unfold main.
  rewrite <- main_loop_with_play_round. split; [reflexivity|].
  now apply main_loop_with_ext.
Qed.

Lemma main_plays_on_chips_witness :
  main_loop_with
    (fun chips cards ls =>
       if 0 <? chips then play_round chips cards ls else Raise IndexError)
    4 100
    (fun _ => stacked [RK of Spade; R6 of Spade; RK of Heart;
                       R8 of Heart; RQ of Club])
    0%nat [LInt 100; LHit; LOther]
  = main (fun _ => stacked [RK of Spade; R6 of Spade; RK of Heart;
                            R8 of Heart; RQ of Club])
      [LInt 100; LHit; LOther].
Proof.
  apply (main_plays_on_chips
           (fun chips cards ls =>
              if 0 <? chips then play_round chips cards ls
              else Raise IndexError)
           (fun _ => stacked [RK of Spade; R6 of Spade; RK of Heart;
                              R8 of Heart; RQ of Club])
           [LInt 100; LHit; LOther]).
  intros chips cards ls H. apply Z.ltb_lt in H. now rewrite H.
Defined.

(** *** A session without doubling *)

Lemma round53_pos_nonneg (n : Z) : 0 <= n -> 0 <= round53_pos n.
Proof.
  intros N. unfold round53_pos.
  destruct (Z.log2 n <? 53); [exact N|].
  apply Z.shiftl_nonneg.
  assert (0 <= Z.shiftr n (Z.log2 n - 52)) by now apply Z.shiftr_nonneg.
  destruct (_ || _); lia.
Qed.

Lemma round53_nonneg (n : Z) : 0 <= n -> 0 <= round53 n.
Proof.
  intros N. unfold round53.
  pose proof (round53_pos_nonneg (Z.abs n) (Z.abs_nonneg n)).
  destruct (Z.eq_dec n 0) as [->|Z0]; [reflexivity|].
  rewrite Z.sgn_pos by lia. lia.
Qed.

(** The payout of a natural is never negative. *)
Lemma int_1_5_times_nonneg (bet payout : Z) :
  0 <= bet -> int_1_5_times bet = Ret payout -> 0 <= payout.
Proof.
  intros B. unfold int_1_5_times.
  pose proof (round53_nonneg bet B) as X.
  assert (Y : 0 <= round53 (3 * round53 bet))
    by (apply round53_nonneg; lia).
  revert Y. generalize (round53 (3 * round53 bet)) as halves.
  intros halves Y.
  destruct (2 ^ 1024 <=? _); [discriminate|].
  destruct (2 ^ 1025 <=? _); [discriminate|].
  intros H. injection H as <-. apply Z.quot_pos; lia.
Qed.

Lemma prompt_action_no_double (can_double : bool) (lines : list Line) :
  forall a rest,
    prompt_action can_double lines = Ret (a, rest) ->
    Forall (fun l => l <> LDouble) lines ->
    a <> double /\ Forall (fun l => l <> LDouble) rest.
Proof.
  induction lines as [|l lines IH]; intros a rest H F; [discriminate|].
  inversion F as [|? ? N F']; subst.
  rewrite prompt_action_cons in H.
  destruct l; cbn [action_of] in H; try (now apply IH);
    try (injection H as <- <-; split; [discriminate | exact F']).
Qed.

Lemma prompt_bet_no_double (chips : Z) (lines : list Line) :
  forall r rest,
    prompt_bet chips lines = Ret (r, rest) ->
    Forall (fun l => l <> LDouble) lines ->
    Forall (fun l => l <> LDouble) rest.
Proof.
  induction lines as [|l lines IH]; intros r rest H F; [discriminate|].
  inversion F as [|? ? N F']; subst. cbn [prompt_bet] in H.
  destruct l; try (now apply (IH r rest));
    try (injection H as <- <-; exact F').
  destruct (_ && _); [injection H as <- <-; exact F' | now apply (IH r rest)].
Qed.

Lemma player_loop_no_double (fuel : nat) :
  forall chips bet original_bet player_cards dealer_cards deck lines r,
    player_loop fuel chips bet original_bet
      player_cards dealer_cards deck lines = Ret r ->
    Forall (fun l => l <> LDouble) lines ->
    match r with
    | inl round =>
        r_doubled round = false
        /\ Forall (fun l => l <> LDouble) (r_input round)
    | inr s =>
        s_doubled s = false /\ Forall (fun l => l <> LDouble) (s_input s)
    end.
Proof.
  induction fuel as [|fuel IH];
    intros chips bet ob pc dc deck lines r H F; [discriminate|].
  rewrite player_loop_step in H.
  destruct (prompt_action (bet <=? chips - bet) lines)
    as [[action lines']| | |] eqn:PA; try discriminate.
  apply prompt_action_no_double in PA as [ND F']; [|exact F].
  cbn [bind] in H. destruct action; [| |congruence].
  - rewrite deal_one in H.
    destruct (pop deck) as [[c rest]|]; [|discriminate]. cbn [bind] in H.
    destruct (21 <? _).
    + injection H as <-. now split.
    + now apply IH in H.
  - injection H as <-. now split.
Qed.

Lemma play_round_no_double
    (chips : Z) (cards : list Card) (lines : list Line)
    (cont : option bool) (chips' : Z) (lines' : list Line) :
  play_round chips cards lines = Ret (cont, chips', lines') ->
  Forall (fun l => l <> LDouble) lines ->
  0 <= chips ->
  0 <= chips' /\ Forall (fun l => l <> LDouble) lines'.
Proof.
  intros H F C. unfold play_round in H.
  destruct (play_round_locals chips cards lines)
    as [[[round|] lines1]| | |] eqn:L; try discriminate; cbn [bind] in H.
  2: { injection H as <- <- <-. split; [exact C|].
       unfold play_round_locals in L.
       destruct (deal cards 2) as [[p d1]| | |]; try discriminate.
       cbn [bind] in L.
       destruct (deal d1 2) as [[d d2]| | |]; try discriminate.
       cbn [bind] in L.
       destruct (prompt_bet chips lines) as [[[b|] l1]| | |] eqn:PB;
         try discriminate; cbn [bind] in L.
       - destruct (play_round_from_bet _ _ _ _ _ _); discriminate.
       - injection L as <-. now apply prompt_bet_no_double in PB. }
  injection H as <- <- <-.
  pose proof (round_chips _ _ _ _ _ L) as [B RC]. cbv zeta in B, RC.
  apply play_round_locals_ret in L
    as (player & dealer & d1 & deck & bet & l1 & _ & _ & PB & R & ->).
  apply prompt_bet_no_double in PB; [|exact F].
  assert (D : r_doubled round = false
              /\ Forall (fun l => l <> LDouble) (r_input round)).
  { unfold play_round_from_bet in R.
    destruct (is_blackjack player || is_blackjack dealer).
    - destruct (is_blackjack player && negb (is_blackjack dealer)).
      + destruct (int_1_5_times bet); try discriminate.
        cbn [bind] in R. injection R as <-. now split.
      + destruct (_ && _); injection R as <-; now split.
    - destruct (player_loop _ _ _ _ _ _ _ _) as [r| | |] eqn:PL;
        try discriminate. cbn [bind] in R.
      apply player_loop_no_double in PL; [|exact PB].
      destruct r as [r|s]; [injection R as <-; exact PL|].
      destruct (dealer_play _ _) as [[k d']| | |]; try discriminate.
      cbn [bind] in R. injection R as <-. exact PL. }
  destruct D as [D FI]. split; [|exact FI].
  rewrite D in RC.
  destruct (r_exit round) as [| | |o].
  - destruct RC as [-> | [-> | (payout & P & ->)]]; try lia.
    apply int_1_5_times_nonneg in P; lia.
  - lia.
  - now destruct RC.
  - rewrite RC. destruct o; cbn [settle]; lia.
Qed.

Lemma main_loop_no_double (fuel : nat) :
  forall chips shuffles n lines printed,
    main_loop fuel chips shuffles n lines = Ret printed ->
    Forall (fun l => l <> LDouble) lines ->
    0 <= chips ->
    Forall (fun x => 0 <= x) printed.
Proof.
  induction fuel as [|fuel IH]; intros chips shuffles n lines printed H F C;
    [discriminate|].
  cbn [main_loop] in H.
  destruct (chips <=? 0); [injection H as <-; constructor|].
  destruct (play_round chips (shuffles n) lines)
    as [[[cont chips'] lines']| | |] eqn:PR; cbn [bind] in H;
    try discriminate.
  apply play_round_no_double in PR as [C' F']; [|exact F|exact C].
  destruct cont; [|injection H as <-; constructor].
  destruct lines' as [|cmd lines']; [discriminate|].
  inversion F' as [|? ? _ F'']; subst.
  destruct cmd; try (injection H as <-; now repeat constructor);
    (destruct (main_loop fuel chips' shuffles (S n) lines') as [rec| | |] eqn:R;
     cbn [bind] in H; try discriminate; injection H as <-;
     constructor; [exact C' | now apply IH in R]).
Qed.

(** X15.  A session in which the player never asks to double keeps its
    balance: every balance [main] prints is zero or more. *)
Theorem session_without_double
    (shuffles : nat -> list Card) (lines : list Line) (printed : list Z) :
  main shuffles lines = Ret printed ->
  Forall (fun l => l <> LDouble) lines ->
  Forall (fun x => 0 <= x) printed.
Proof.
  intros H F. apply (main_loop_no_double _ _ _ _ _ _ H F). lia.
Qed.

Lemma session_without_double_witness :
  Forall (fun x => 0 <= x) [0].
Proof.
  apply (session_without_double
           (fun _ => stacked [RK of Spade; R6 of Spade; RK of Heart;
                              R8 of Heart; RQ of Club])
           [LInt 100; LHit; LOther] [0]).
  - vm_compute. reflexivity.
  - repeat constructor; discriminate.
Defined.

(** ** The window *)

Ltac gui_simpl :=
  cbn [g_chips g_deck g_player g_dealer g_bet g_hit_btn g_stand_btn
       g_double_btn g_status g_boxes gui_end_round] in *.

Lemma askinteger_range (lo hi : Z) (entries : list Z) (e : Z) :
  askinteger lo hi entries = Some e -> lo <= e <= hi.
Proof.
  induction entries as [|x entries IH]; cbn [askinteger]; [discriminate|].
  destruct ((lo <=? x) && (x <=? hi)) eqn:E; [|exact IH].
  intros [= <-]. apply andb_true_iff in E as [A B]. lia.
Qed.

Lemma gui_stand_ret (g g' : GUI) :
  gui_stand g = Ret g' ->
  dealer_play (g_deck g) (g_dealer g) = Ret (g_deck g', g_dealer g')
  /\ g_chips g'
     = settle (compare_outcome (g_player g) (g_dealer g'))
         (g_chips g) (g_bet g)
  /\ g_player g' = g_player g
  /\ g_bet g' = g_bet g
  /\ g_hit_btn g' = false /\ g_stand_btn g' = false
  /\ g_double_btn g' = false.
Proof.
  unfold gui_stand.
  destruct (dealer_play (g_deck g) (g_dealer g)) as [[deck dealer]| | |];
    try discriminate. cbn [bind].
  destruct (compare_outcome (g_player g) dealer) eqn:O;
    intros [= <-]; gui_simpl; rewrite O; repeat split.
Qed.

Lemma gui_inv_off (g : GUI) :
  g_hit_btn g = false -> g_stand_btn g = false -> g_double_btn g = false ->
  gui_inv g.
Proof.
  intros H S D. unfold gui_inv. rewrite H, S, D.
  split; [reflexivity|]. split; discriminate.
Qed.

Lemma deal_two (cards cs rest : list Card) :
  deal cards 2 = Ret (cs, rest) ->
  (length cs = 2)%nat /\ fst (hand_value cs) <= 21
  /\ (length rest + 2 = length cards)%nat.
Proof.
  intros H. apply deal_ret in H as [-> L].
  rewrite length_app, length_rev.
  destruct cs as [|a [|b [|c cs]]]; try discriminate.
  split; [reflexivity|]. split; [apply two_cards_total | cbn [length]; lia].
Qed.

Lemma gui_click_inv (e : Event) (g g' : GUI) :
  gui_click e g = Ret g' -> gui_inv g -> gui_inv g'.
Proof.
  intros H I. pose proof I as (I1 & I2 & I3).
  destruct e as [cards entries| | |]; cbn [gui_click] in H.
  - unfold gui_new_round in H.
    destruct (deal cards 2) as [[player d1]| | |] eqn:D1; try discriminate.
    cbn [bind] in H.
    destruct (deal d1 2) as [[dealer deck]| | |] eqn:D2; try discriminate.
    cbn [bind] in H.
    apply deal_two in D1 as (_ & PT & _). apply deal_two in D2 as (DL & _ & _).
    destruct (askinteger 1 (g_chips g) entries) as [bet|] eqn:A.
    + apply askinteger_range in A. cbv zeta in H.
      destruct (is_blackjack player || is_blackjack dealer).
      * destruct (is_blackjack player && negb (is_blackjack dealer)).
        -- destruct (int_1_5_times bet); try discriminate.
           injection H as <-. now apply gui_inv_off.
        -- destruct (_ && _); injection H as <-; now apply gui_inv_off.
      * injection H as <-. unfold gui_inv. gui_simpl.
        split; [reflexivity|]. split; [reflexivity|]. intros _.
        split; [exact A|]. split; [exact PT|]. split; [exact DL|].
        intros E. apply Z.leb_le in E. exact E.
    + injection H as <-. unfold gui_inv. gui_simpl.
      split; [exact I1|]. split; [exact I2|]. intros B.
      destruct (I3 B) as (R & _ & _ & Aff).
      split; [exact R|]. split; [exact PT|]. split; [exact DL|]. exact Aff.
  - destruct (g_hit_btn g) eqn:B; [|injection H as <-; exact I].
    unfold gui_hit in H. rewrite deal_one in H.
    destruct (pop (g_deck g)) as [[c rest]|]; [|discriminate].
    cbn [bind] in H.
    destruct (Z.ltb_spec 21 (fst (hand_value (g_player g ++ [c])))) as [L|L];
      injection H as <-.
    + now apply gui_inv_off.
    + unfold gui_inv. gui_simpl. rewrite ?B.
      destruct (I3 eq_refl) as (R & _ & DL & Aff).
      split; [exact I1|]. split; [exact I2|]. intros _.
      split; [exact R|]. split; [exact L|]. split; [exact DL|]. exact Aff.
  - destruct (g_stand_btn g); [|injection H as <-; exact I].
    apply gui_stand_ret in H as (_ & _ & _ & _ & A & B & C).
    now apply gui_inv_off.
  - destruct (g_double_btn g); [|injection H as <-; exact I].
    unfold gui_double in H.
    destruct (g_bet g <=? g_chips g); [|injection H as <-; exact I].
    rewrite deal_one in H.
    destruct (pop (g_deck g)) as [[c rest]|]; [|discriminate].
    cbn [bind] in H. destruct (21 <? _).
    + injection H as <-. now apply gui_inv_off.
    + apply gui_stand_ret in H as (_ & _ & _ & _ & A & B & C).
      now apply gui_inv_off.
Qed.

Lemma gui_run_inv (events : list Event) : forall g g',
  gui_run g events = Ret g' -> gui_inv g -> gui_inv g'.
Proof.
  induction events as [|e events IH]; intros g g' H I; cbn [gui_run] in H.
  - now injection H as <-.
  - destruct (gui_click e g) as [g1| | |] eqn:C; try discriminate.
    cbn [bind] in H. apply (IH g1 g' H). now apply (gui_click_inv e g).
Qed.

(** X16.  In every state the window reaches, the Hit and Stand buttons
    are enabled together, and Double only with them; while they are
    enabled the bet lies between 1 and the chips, the player's hand is
    not bust and the dealer holds two cards; and while Double is enabled
    the chips cover the doubled bet, so that the test [chips >= bet]
    with which [double] starts never fails. *)
Theorem gui_buttons (events : list Event) (g : GUI) :
  gui_run gui_init events = Ret g ->
  gui_inv g
  /\ (g_double_btn g = true -> (g_bet g <=? g_chips g) = true).
Proof.
  intros H.
  assert (I : gui_inv g).
  { apply (gui_run_inv events gui_init g H).
    now apply gui_inv_off. }
  split; [exact I|]. intros D.
  destruct I as (_ & I2 & I3). destruct (I3 (I2 D)) as (R & _ & _ & A).
  specialize (A D). apply Z.leb_le. lia.
Qed.

Lemma gui_buttons_witness :
  gui_inv
    (mkGUI 100 (firstn 47 fresh_cards)
       [RA of Club; RA of Diamond; RK of Club] [RA of Heart; RA of Spade] 10
       true true true None []).
Proof.
  apply (gui_buttons [ClickNew fresh_cards [0; 10]; ClickHit]).
  vm_compute. reflexivity.
Defined.

(** *** The window and the command line play the same round *)

Lemma gui_run_off (acts : list Action) (g : GUI) :
  g_hit_btn g = false -> g_stand_btn g = false -> g_double_btn g = false ->
  gui_run g (map click_of acts) = Ret g.
Proof.
  intros H S D. induction acts as [|a acts IH]; [reflexivity|].
  cbn [map gui_run]. destruct a; cbn [click_of gui_click];
    rewrite ?H, ?S, ?D; cbn [bind]; exact IH.
Qed.

Lemma prompt_bet_actions (chips : Z) (acts : list Action) :
  prompt_bet chips (map line_of acts) = Diverges.
Proof.
  induction acts as [|a acts IH]; [reflexivity|].
  destruct a; cbn [map line_of prompt_bet]; exact IH.
Qed.

Lemma gui_stand_total (g : GUI) (deck dealer : list Card) :
  dealer_play (g_deck g) (g_dealer g) = Ret (deck, dealer) ->
  exists g',
    gui_stand g = Ret g'
    /\ g_chips g'
       = settle (compare_outcome (g_player g) dealer) (g_chips g) (g_bet g)
    /\ g_bet g' = g_bet g /\ g_player g' = g_player g
    /\ g_dealer g' = dealer /\ g_deck g' = deck
    /\ g_hit_btn g' = false /\ g_stand_btn g' = false
    /\ g_double_btn g' = false.
Proof.
  intros D. unfold gui_stand. rewrite D. cbn [bind].
  destruct (compare_outcome (g_player g) dealer);
    eexists; (split; [reflexivity|]); gui_simpl; cbn [settle];
    repeat split.
Qed.

Lemma player_loop_skip_double (fuel : nat) (chips bet ob : Z)
    (pc dc deck : list Card) (lines : list Line) :
  (bet <=? chips - bet) = false ->
  player_loop (S fuel) chips bet ob pc dc deck (LDouble :: lines)
  = player_loop (S fuel) chips bet ob pc dc deck lines.
Proof.
  intros N. rewrite !player_loop_step, prompt_action_cons.
  cbn [action_of]. now rewrite N.
Qed.

Lemma gui_follows_player_loop (acts : list Action) :
  forall fuel chips bet ob pc dc deck r st bx,
    player_loop fuel chips bet ob pc dc deck (map line_of acts) = Ret r ->
    0 <= bet ->
    let g := mkGUI chips deck pc dc bet true true (bet <=? chips - bet)
               st bx in
    match r with
    | inl round =>
        exists g', gui_run g (map click_of acts) = Ret g'
                   /\ gui_agrees g' round
    | inr s =>
        forall deck' dealer',
          dealer_play (s_deck s) dc = Ret (deck', dealer') ->
          exists g',
            gui_run g (map click_of acts) = Ret g'
            /\ g_chips g'
               = settle (compare_outcome (s_player_cards s) dealer')
                   (s_chips s) (s_bet s)
            /\ g_bet g' = s_bet s /\ g_player g' = s_player_cards s
            /\ g_dealer g' = dealer' /\ g_deck g' = deck'
            /\ g_hit_btn g' = false /\ g_stand_btn g' = false
            /\ g_double_btn g' = false
    end.
Proof.
  induction acts as [|a acts IH];
    intros fuel chips bet ob pc dc deck r st bx H B; cbv zeta.
  - destruct fuel; discriminate.
  - destruct fuel as [|fuel]; [discriminate|]. cbn [map] in *.
    destruct a; cbn [line_of click_of] in *;
      [rewrite player_loop_step, prompt_action_cons in H;
       cbn [action_of] in H
      |rewrite player_loop_step, prompt_action_cons in H;
       cbn [action_of] in H
      |].
    + (* hit *)
      cbn [bind] in H. rewrite deal_one in H.
      cbn [gui_run gui_click g_hit_btn]. unfold gui_hit. gui_simpl.
      rewrite deal_one.
      destruct (pop deck) as [[c rest]|]; [|discriminate].
      cbn [bind] in *.
      destruct (21 <? fst (hand_value (pc ++ [c]))).
      * injection H as <-. cbn [bind]. eexists. split.
        -- apply gui_run_off; reflexivity.
        -- unfold gui_agrees. gui_simpl.
           cbn [r_chips r_bet r_player_cards r_dealer_cards r_deck].
           repeat split.
      * cbn [bind]. apply (IH fuel chips bet ob (pc ++ [c]) dc rest r st bx H B).
    + (* stand *)
      cbn [bind] in H. injection H as <-.
      cbn [s_deck s_player_cards s_chips s_bet].
      intros deck' dealer' D.
      cbn [gui_run gui_click g_stand_btn].
      set (g := mkGUI chips deck pc dc bet true true (bet <=? chips - bet)
                  st bx).
      destruct (gui_stand_total g deck' dealer' D)
        as (g' & E & A1 & A2 & A3 & A4 & A5 & A6 & A7 & A8).
      rewrite E. cbn [bind]. exists g'.
      split; [now apply gui_run_off|]. subst g. gui_simpl.
      repeat split; assumption.
    + (* double *)
      destruct (bet <=? chips - bet) eqn:E0.
      * assert (Aff : bet <= chips - bet) by now apply Z.leb_le.
        rewrite player_loop_step, prompt_action_cons in H.
        cbn [action_of] in H. rewrite E0 in H.
        cbn [bind] in H. rewrite deal_one in H.
        cbn [gui_run gui_click g_double_btn]. unfold gui_double. gui_simpl.
        replace (bet <=? chips) with true
          by (symmetry; apply Z.leb_le; lia).
        rewrite deal_one.
        destruct (pop deck) as [[c rest]|]; [|discriminate].
        cbn [bind] in *.
        destruct (21 <? fst (hand_value (pc ++ [c]))).
        -- injection H as <-. cbn [bind]. eexists. split.
           ++ apply gui_run_off; reflexivity.
           ++ unfold gui_agrees. gui_simpl.
              cbn [r_chips r_bet r_player_cards r_dealer_cards r_deck].
              repeat split.
        -- injection H as <-.
           cbn [s_deck s_player_cards s_chips s_bet].
           intros deck' dealer' D.
           set (g := mkGUI (chips - bet) rest (pc ++ [c]) dc (bet * 2)
                       true true true st bx).
           destruct (gui_stand_total g deck' dealer' D)
             as (g' & E & A1 & A2 & A3 & A4 & A5 & A6 & A7 & A8).
           rewrite E. cbn [bind]. exists g'.
           split; [now apply gui_run_off|]. subst g. gui_simpl.
           repeat split; assumption.
      * rewrite player_loop_skip_double in H by exact E0.
        cbn [gui_run gui_click g_double_btn bind].
        pose proof (IH (S fuel) chips bet ob pc dc deck r st bx H B) as G.
        cbv zeta in G. now rewrite E0 in G.
Qed.

(** X17.  The window and the command line play the same round.  When
    [play_round] returns on a deck, a bet and a sequence of actions,
    the window - whatever it showed before - comes, on a click on New
    Round with that deck and that bet followed by the same actions, to
    the same chips, bet, hands and deck, with the action buttons
    disabled; actions asked for after the end of the round, or a double
    that is not offered, are ignored by both. *)
Theorem gui_plays_play_round
    (g : GUI) (cards : list Card) (b : Z) (acts : list Action)
    (round : Round) (lines' : list Line) :
  play_round_locals (g_chips g) cards (LInt b :: map line_of acts)
  = Ret (Some round, lines') ->
  exists g',
    gui_run g (ClickNew cards [b] :: map click_of acts) = Ret g'
    /\ gui_agrees g' round.
Proof.
  unfold play_round_locals. cbn [gui_run gui_click]. unfold gui_new_round.
  destruct (deal cards 2) as [[player d1]| | |]; try discriminate.
  cbn [bind].
  destruct (deal d1 2) as [[dealer deck]| | |]; try discriminate.
  cbn [bind prompt_bet askinteger].
  destruct ((1 <=? b) && (b <=? g_chips g)) eqn:V.
  2: { rewrite prompt_bet_actions. discriminate. }
  assert (B : 0 <= b) by (apply andb_true_iff in V as [V _];
                          apply Z.leb_le in V; lia).
  cbn [bind]. cbv zeta. unfold play_round_from_bet.
  destruct (is_blackjack player || is_blackjack dealer).
  - destruct (is_blackjack player && negb (is_blackjack dealer)).
    + destruct (int_1_5_times b) as [payout| | |]; try discriminate.
      cbn [bind]. intros [= <- _]. eexists.
      split; [apply gui_run_off; reflexivity|].
      unfold gui_agrees. gui_simpl.
      cbn [r_chips r_bet r_player_cards r_dealer_cards r_deck].
      repeat split.
    + destruct (is_blackjack dealer && negb (is_blackjack player));
        cbn [bind]; intros [= <- _]; eexists;
        (split; [apply gui_run_off; reflexivity|]);
        unfold gui_agrees; gui_simpl;
        cbn [r_chips r_bet r_player_cards r_dealer_cards r_deck];
        repeat split.
  - destruct (player_loop _ _ _ _ _ _ _ _) as [r| | |] eqn:PL;
      try discriminate. cbn [bind].
    pose proof (gui_follows_player_loop acts _ _ _ _ _ _ _ _
                  None (g_boxes g) PL B) as G. cbv zeta in G.
    destruct r as [round0|s].
    + intros [= <- _]. exact G.
    + destruct (dealer_play (s_deck s) dealer) as [[deck' dealer']| | |]
        eqn:DP; try discriminate.
      cbn [bind]. intros [= <- _].
      destruct (G deck' dealer' eq_refl)
        as (g' & E & A1 & A2 & A3 & A4 & A5 & A6 & A7 & A8).
      exists g'. split; [exact E|].
      unfold gui_agrees.
      cbn [r_chips r_bet r_player_cards r_dealer_cards r_deck].
      repeat split; assumption.
Qed.

Lemma gui_plays_play_round_witness :
  exists g',
    gui_run gui_init
      (ClickNew
         (stacked [R5 of Spade; R6 of Spade; RK of Heart; R9 of Heart;
                   R7 of Club]) [50]
       :: map click_of [double; hit])
    = Ret g'
    /\ g_chips g' = -50.
Proof.
  destruct (gui_plays_play_round gui_init
              (stacked [R5 of Spade; R6 of Spade; RK of Heart; R9 of Heart;
                        R7 of Club]) 50 [double; hit]
              (mkRound (-50) 100 50 true
                 [R5 of Spade; R6 of Spade; R7 of Club]
                 [RK of Heart; R9 of Heart]
                 (firstn 47
                    (stacked [R5 of Spade; R6 of Spade; RK of Heart;
                              R9 of Heart; R7 of Club]))
                 [LHit] (ExitFinal dealer_win)) [LHit])
    as (g' & E & A & _).
  - vm_compute. reflexivity.
  - exists g'. split; [exact E | exact A].
Defined.

(** *** The window never runs out of cards *)

Lemma gui_deck_inv_off (g : GUI) :
  g_hit_btn g = false -> g_double_btn g = false -> gui_deck_inv g.
Proof.
  intros H D [E|E]; congruence.
Qed.

Lemma gui_stand_safe (g : GUI) :
  (length (g_dealer g) = 2)%nat -> (15 <= length (g_deck g))%nat ->
  exists g', gui_stand g = Ret g' /\ gui_deck_inv g'.
Proof.
  intros LD LK.
  pose proof (sum_ace_one_length (g_dealer g)) as M.
  destruct (dealer_play (g_deck g) (g_dealer g)) as [[deck dealer]|e| |]
    eqn:DP.
  - destruct (gui_stand_total g deck dealer DP)
      as (g' & E & _ & _ & _ & _ & _ & A & _ & C).
    exists g'. split; [exact E | now apply gui_deck_inv_off].
  - apply dealer_loop_raise in DP as [_ B]. lia.
  - exfalso. revert DP. apply dealer_loop_fuel; lia.
  - exfalso. revert DP. apply dealer_play_fuel.
Qed.

Lemma gui_click_safe (e : Event) (g : GUI) :
  gui_inv g -> gui_deck_inv g -> shuffled e ->
  (exists g', gui_click e g = Ret g' /\ gui_deck_inv g')
  \/ gui_click e g = Raise OverflowError.
Proof.
  intros (I1 & I2 & I3) K S. destruct e as [cards entries| | |];
    cbn [gui_click shuffled] in *.
  - apply Permutation_length in S.
    change (length fresh_cards) with 52%nat in S.
    unfold gui_new_round.
    destruct (deal_enough 2 cards) as (player & d1 & D1); [lia|].
    rewrite D1. cbn [bind]. apply deal_two in D1 as (LP & _ & L1).
    destruct (deal_enough 2 d1) as (dealer & deck & D2); [lia|].
    rewrite D2. cbn [bind]. apply deal_two in D2 as (_ & _ & L2).
    assert (L : (length deck + length player = 50)%nat) by lia.
    destruct (askinteger 1 (g_chips g) entries) as [bet|].
    + cbv zeta. destruct (is_blackjack player || is_blackjack dealer).
      * destruct (is_blackjack player && negb (is_blackjack dealer)).
        -- destruct (int_1_5_times_fails bet) as [(payout & ->)| ->];
             [|now right].
           left. eexists. split; [reflexivity|].
           now apply gui_deck_inv_off.
        -- destruct (_ && _); left; eexists;
             (split; [reflexivity | now apply gui_deck_inv_off]).
      * left. eexists. split; [reflexivity|]. intros _. exact L.
    + left. eexists. split; [reflexivity|]. intros _. exact L.
  - destruct (Bool.bool_dec (g_hit_btn g) true) as [B|B];
      [rewrite B | apply not_true_is_false in B; rewrite B; left;
                   now exists g].
    destruct (I3 B) as (_ & PT & LD & _).
    specialize (K (or_introl B)).
    pose proof (hand_value_ge_length (g_player g)) as PL.
    unfold gui_hit. rewrite deal_one.
    destruct (deck_cases (g_deck g)) as [E|(rest & c & E)];
      [rewrite E in K; cbn [length] in K; lia|].
    rewrite E, pop_snoc. cbn [bind].
    rewrite E, length_app in K. cbn [length] in K.
    destruct (21 <? _); left; eexists; (split; [reflexivity|]).
    + now apply gui_deck_inv_off.
    + intros _. gui_simpl. rewrite length_app. cbn [length]. lia.
  - destruct (Bool.bool_dec (g_stand_btn g) true) as [B|B];
      [rewrite B | apply not_true_is_false in B; rewrite B; left;
                   now exists g].
    rewrite B in I1.
    destruct (I3 I1) as (_ & PT & LD & _).
    specialize (K (or_introl I1)).
    pose proof (hand_value_ge_length (g_player g)) as PL.
    left. apply gui_stand_safe; [exact LD | lia].
  - destruct (Bool.bool_dec (g_double_btn g) true) as [B|B];
      [rewrite B | apply not_true_is_false in B; rewrite B; left;
                   now exists g].
    specialize (I2 B).
    destruct (I3 I2) as (_ & PT & LD & _).
    specialize (K (or_introl I2)).
    pose proof (hand_value_ge_length (g_player g)) as PL.
    unfold gui_double.
    destruct (g_bet g <=? g_chips g); [|left; exists g; split;
      [reflexivity | intros _; exact K]].
    rewrite deal_one.
    destruct (deck_cases (g_deck g)) as [E|(rest & c & E)];
      [rewrite E in K; cbn [length] in K; lia|].
    rewrite E, pop_snoc. cbn [bind].
    rewrite E, length_app in K. cbn [length] in K.
    destruct (21 <? _).
    + left. eexists. split; [reflexivity|]. now apply gui_deck_inv_off.
    + left. apply gui_stand_safe; gui_simpl; [exact LD | lia].
Qed.

Lemma gui_run_safe (events : list Event) : forall g,
  gui_inv g -> gui_deck_inv g -> Forall shuffled events ->
  (exists g', gui_run g events = Ret g')
  \/ gui_run g events = Raise OverflowError.
Proof.
  induction events as [|e events IH]; intros g I K F; cbn [gui_run].
  - left. now exists g.
  - inversion F as [|? ? S F']; subst.
    destruct (gui_click_safe e g I K S) as [(g1 & E & K1)| ->];
      [|now right].
    rewrite E. cbn [bind]. apply IH; try assumption.
    now apply (gui_click_inv e g).
Qed.

(** X18.  The window never pops an empty deck.  When every click on New
    Round shuffles the 52 cards, a session of the window, whatever the
    clicks and the bets, goes through without [IndexError]: every
    command returns, unless the payout of a natural overflows. *)
Theorem gui_deck_never_empty (events : list Event) :
  Forall shuffled events ->
  (exists g, gui_run gui_init events = Ret g)
  \/ gui_run gui_init events = Raise OverflowError.
Proof.
  intros F. apply gui_run_safe; [| |exact F].
  - now apply gui_inv_off.
  - now apply gui_deck_inv_off.
Qed.

Lemma gui_deck_never_empty_witness :
  (exists g,
     gui_run gui_init [ClickNew fresh_cards [10]; ClickHit; ClickStand]
     = Ret g)
  \/ gui_run gui_init [ClickNew fresh_cards [10]; ClickHit; ClickStand]
     = Raise OverflowError.
Proof.
  apply gui_deck_never_empty.
  constructor; [apply Permutation_refl|]. repeat constructor.
Defined.

Lemma askinteger_empty (lo hi : Z) (entries : list Z) :
  hi < lo -> askinteger lo hi entries = None.
Proof.
  intros E. induction entries as [|x entries IH]; cbn [askinteger];
    [reflexivity|].
  destruct (Z.leb_spec lo x), (Z.leb_spec x hi); cbn [andb];
    try exact IH. lia.
Qed.

Lemma gui_click_broke (e : Event) (g g' : GUI) :
  gui_click e g = Ret g' -> gui_inv g -> g_chips g <= 0 ->
  g_chips g' = g_chips g.
Proof.
  intros H (I1 & I2 & I3) C.
  assert (HB : g_hit_btn g = false).
  { destruct (g_hit_btn g); [|reflexivity].
    destruct (I3 eq_refl) as (R & _). lia. }
  assert (SB : g_stand_btn g = false) by congruence.
  assert (DB : g_double_btn g = false).
  { destruct (g_double_btn g); [|reflexivity].
    specialize (I2 eq_refl). congruence. }
  destruct e as [cards entries| | |]; cbn [gui_click] in H;
    rewrite ?HB, ?SB, ?DB in H; try (now injection H as <-).
  unfold gui_new_round in H.
  destruct (deal cards 2) as [[player d1]| | |]; try discriminate.
  cbn [bind] in H.
  destruct (deal d1 2) as [[dealer deck]| | |]; try discriminate.
  cbn [bind] in H.
  rewrite askinteger_empty in H by lia. now injection H as <-.
Qed.

(** X19.  In the window, being out of chips is for good: from a state
    whose chips are zero or less, no click changes the chips again -
    the action buttons are disabled there, and the bet dialog of a new
    round, which asks for an integer from 1 to the chips, can only be
    cancelled. *)
Theorem gui_broke_is_final (before after : list Event) (g g' : GUI) :
  gui_run gui_init before = Ret g ->
  g_chips g <= 0 ->
  gui_run g after = Ret g' ->
  g_chips g' = g_chips g.
Proof.
  intros H C.
  assert (I : gui_inv g).
  { apply (gui_run_inv before gui_init g H). now apply gui_inv_off. }
  clear H. revert g I C.
  induction after as [|e after IH]; intros g I C R; cbn [gui_run] in R.
  - now injection R as <-.
  - destruct (gui_click e g) as [g1| | |] eqn:E; try discriminate.
    cbn [bind] in R.
    pose proof (gui_click_broke e g g1 E I C) as K.
    rewrite <- K. apply IH; [now apply (gui_click_inv e g) | lia | exact R].
Qed.

Lemma gui_broke_is_final_witness :
  g_chips
    (mkGUI 0 (firstn 48 fresh_cards)
       [RA of Club; RA of Diamond] [RA of Heart; RA of Spade] 100
       false false false (Some NBusted) [NBusted])
  = g_chips
      (mkGUI 0 (firstn 46 fresh_cards)
         [RA of Club; RA of Diamond; RK of Club; RK of Diamond]
         [RA of Heart; RA of Spade]
         100 false false false (Some NBusted) [NBusted]).
Proof.
  apply (gui_broke_is_final
           [ClickNew fresh_cards [100]; ClickHit; ClickHit]
           [ClickNew fresh_cards [5]; ClickHit; ClickStand]).
  - vm_compute. reflexivity.
  - vm_compute. discriminate.
  - vm_compute. reflexivity.
Defined.

(** ** More on the dealer and on a round *)

(** X20.  [dealer_play] has nothing to add to its own result: called
    again on the deck and the hand it returned, it returns them as they
    are. *)
Theorem dealer_play_again (deck hand deck' hand' : list Card) :
  dealer_play deck hand = Ret (deck', hand') ->
  dealer_play deck' hand' = Ret (deck', hand').
Proof.
  intros H. apply dealer_loop_ret in H as (drawn & _ & _ & T & _).
  now apply dealer_loop_stop.
Qed.

Lemma dealer_play_again_witness :
  dealer_play [] [RK of Heart; R6 of Club; R5 of Spade]
  = Ret ([], [RK of Heart; R6 of Club; R5 of Spade]).
Proof.
  apply (dealer_play_again [R5 of Spade] [RK of Heart; R6 of Club]).
  reflexivity.
Defined.

(** X21.  What a round can cost.  Against the chips at its start, a
    round that returns has taken at most the bet when the player did not
    double and at most three times the bet when the player did; since
    doubling asks for twice the bet in chips, the balance after a round
    is never below minus half the chips the round started with. *)
Theorem round_loss_bound
    (chips : Z) (cards : list Card) (lines : list Line)
    (round : Round) (lines' : list Line) :
  play_round_locals chips cards lines = Ret (Some round, lines') ->
  let b := r_original_bet round in
  1 <= b <= chips
  /\ (r_doubled round = false -> chips - b <= r_chips round)
  /\ (r_doubled round = true ->
      2 * b <= chips /\ chips - 3 * b <= r_chips round)
  /\ 0 <= 2 * r_chips round + chips.
Proof.
  intros H. cbv zeta.
  apply play_round_locals_ret in H
    as (player & dealer & d1 & deck & bet & lines1 & D1 & D2 & PB & R & _).
  apply prompt_bet_ret in PB as [_ PB]. specialize (PB bet eq_refl).
  apply deal_ret in D1 as [_ LP].
  apply play_round_from_bet_ret in R
    as (dp & dd & OB & _ & _ & _ & _ & _ & _ & RE); [|exact LP].
  rewrite OB. split; [exact PB|].
  unfold round_ends in RE.
  destruct (r_exit round) as [| | |o].
  - destruct RE as (D & _ & _ & _ & RE). rewrite D.
    assert (chips - bet <= r_chips round).
    { destruct RE as [(_ & _ & payout & P & ->)|[(_ & _ & ->)|(_ & _ & ->)]];
        try lia.
      apply int_1_5_times_nonneg in P; lia. }
    repeat split; try discriminate; lia.
  - destruct RE as (D & _ & _ & _ & ->). rewrite D.
    repeat split; try discriminate; lia.
  - destruct RE as (D & _ & _ & _ & A & ->). rewrite D.
    repeat split; try discriminate; lia.
  - destruct RE as (_ & _ & RE). destruct (r_doubled round).
    + destruct RE as (_ & A & _ & ->).
      repeat split; try discriminate; destruct o; cbn [settle]; lia.
    + destruct RE as (_ & ->).
      repeat split; try discriminate; destruct o; cbn [settle]; lia.
Qed.

Lemma round_loss_bound_witness :
  0 <= 2 * r_chips
         (mkRound (-50) 100 50 true
            [R5 of Spade; R6 of Spade; R7 of Club] [RK of Heart; R9 of Heart]
            (firstn 47
               (stacked [R5 of Spade; R6 of Spade; RK of Heart; R9 of Heart;
                         R7 of Club]))
            [] (ExitFinal dealer_win))
       + 100.
Proof.
  refine (proj2 (proj2 (proj2
    (round_loss_bound 100
       (stacked [R5 of Spade; R6 of Spade; RK of Heart; R9 of Heart;
                 R7 of Club])
       [LInt 50; LDouble] _ [] _)))).
  vm_compute. reflexivity.
Defined.
